(** * PPO agent ([Old/ppo.py], [networks.py]): a shallow embedding

    The agent of [Old/ppo.py] is embedded method by method.  Python floats
    and torch/numpy float tensors are idealised as real numbers: a 1-D
    tensor is a [list R], a 2-D tensor a list of rows.  Consequently there
    is no NaN or infinity in the model, and the diagnostic prints guarded by
    [np.isnan] never fire.  Exceptions are explicit ([result]); the mutable
    agent [self], together with the process state it touches (standard
    output, the torch random generator), is threaded through a small
    state-and-exception monad. *)

From Stdlib Require Import String Reals Lra List Bool Arith ZArith Lia.
From Stdlib Require Import FunctionalExtensionality.
Import ListNotations.
Open Scope R_scope.

(* ================================================================== *)
(** * Python: exceptions, names, sequences *)

Module Py.

Inductive exn : Type :=
| NameError (name : string)
| IndexError
| ValueError
| ZeroDivisionError
| NotImplementedError
| RuntimeError.

Inductive result (A : Type) : Type :=
| Ok (a : A)
| Raise (e : exn).
Arguments Ok {A} a.
Arguments Raise {A} e.

Definition rbind {A B} (c : result A) (k : A -> result B) : result B :=
  match c with
  | Ok a => k a
  | Raise e => Raise e
  end.

(** Names bound at module level in [Old/ppo.py] once its imports (lines
    1-16) and its single class statement have run.  Line 13, the import of
    [normal], is commented out; line 16 imports two of the three network
    classes of [networks.py]. *)
Definition module_globals : list string :=
  [ "pd"; "itertools"; "np"; "datetime"; "gym"; "Monitor"; "Box"; "Discrete";
    "torch"; "nn"; "optim"; "F"; "Memory";
    "CustomValueNetwork"; "CustomDiscreteActorNetwork"; "PPOAgent" ]%string.

(** The built-in names the methods use. *)
Definition builtins : list string :=
  [ "print"; "isinstance"; "len"; "range"; "reversed"; "int"; "round" ]%string.

(** Evaluation of a name that is not a local variable of the running
    method: module globals, then builtins, else [NameError]. *)
Definition global (name : string) : result unit :=
  if existsb (String.eqb name) (module_globals ++ builtins)
  then Ok tt else Raise (NameError name).

(** [l[i]] for a Python integer [i]: negative indices count from the end. *)
Definition getitem {A} (l : list A) (i : Z) : result A :=
  let n := Z.of_nat (length l) in
  let j := if (i <? 0)%Z then (n + i)%Z else i in
  if (j <? 0)%Z then Raise IndexError
  else match nth_error l (Z.to_nat j) with
       | Some x => Ok x
       | None => Raise IndexError
       end.

(** [l[i:j]] for [0 <= i <= j]. *)
Definition slice {A} (l : list A) (i j : nat) : list A :=
  firstn (j - i) (skipn i l).

(** [range(0, stop, step)] for a non-negative step; a zero step raises. *)
Definition range_step (stop step : nat) : result (list nat) :=
  match step with
  | O => Raise ValueError
  | S _ => Ok (map (fun k => (k * step)%nat) (seq 0 ((stop + step - 1) / step)))
  end.

(** [reversed(range(n))]. *)
Definition reversed_range (n : nat) : list nat := rev (seq 0 n).

(** A [for] loop whose body updates a state and may raise. *)
Fixpoint for_each {A S} (body : A -> S -> result S) (xs : list A) (s : S)
  : result S :=
  match xs with
  | [] => Ok s
  | x :: xs' => rbind (body x s) (for_each body xs')
  end.

(** What [print] writes. *)
Inductive printed : Type :=
| Text (s : string)
| Number (x : R)
| Labelled (label : string) (v : list R).

End Py.
Export Py.

(** The monad of a method: it reads and updates a state [S] and may raise. *)
Definition M (S A : Type) : Type := S -> result (A * S).

Definition ret {S A} (a : A) : M S A := fun s => Ok (a, s).
Definition bind {S A B} (c : M S A) (k : A -> M S B) : M S B :=
  fun s => match c s with
           | Ok (a, s') => k a s'
           | Raise e => Raise e
           end.
Definition get {S} : M S S := fun s => Ok (s, s).
Definition gets {S A} (f : S -> A) : M S A := fun s => Ok (f s, s).
Definition modify {S} (f : S -> S) : M S unit := fun s => Ok (tt, f s).
Definition lift {S A} (c : result A) : M S A :=
  fun s => match c with
           | Ok a => Ok (a, s)
           | Raise e => Raise e
           end.

Declare Scope monad_scope.
Delimit Scope monad_scope with monad.
Notation "x <- c ;; k" := (bind c (fun x => k))
  (at level 61, c at next level, right associativity) : monad_scope.
Notation "' pat <- c ;; k" := (bind c (fun x => match x with pat => k end))
  (at level 61, pat pattern, c at next level, right associativity) : monad_scope.
Notation "c ;;; k" := (bind c (fun _ => k))
  (at level 61, right associativity) : monad_scope.

(* ================================================================== *)
(** * Tensors *)

Module Torch.

Definition vec := list R.
Definition mat := list (list R).

(** [torch.sum] of a 1-D tensor. *)
Definition tsum (v : vec) : R := fold_right Rplus 0 v.

(** [torch.sum] of a 2-D tensor. *)
Definition msum (m : mat) : R := tsum (map tsum m).

(** [m.view(-1)]. *)
Definition flatten (m : mat) : vec := concat m.

Fixpoint zip_with {A B C} (f : A -> B -> C) (a : list A) (b : list B) : list C :=
  match a, b with
  | x :: a', y :: b' => f x y :: zip_with f a' b'
  | _, _ => []
  end.

(** An elementwise binary operation on 1-D tensors, with torch
    broadcasting: equal sizes, or one operand of size 1. *)
Definition ewise (f : R -> R -> R) (a b : vec) : result vec :=
  if (length a =? length b)%nat then Ok (zip_with f a b)
  else match a, b with
       | [x], _ => Ok (map (f x) b)
       | _, [y] => Ok (map (fun x => f x y) a)
       | _, _ => Raise RuntimeError
       end.

(** [torch.dot]: both operands 1-D with the same number of elements. *)
Definition dot (a b : vec) : result R :=
  if (length a =? length b)%nat then Ok (tsum (zip_with Rmult a b))
  else Raise RuntimeError.

(** [torch.clamp(x, lo, hi)] is [min(max(x, lo), hi)]. *)
Definition clamp (lo hi x : R) : R := Rmin (Rmax x lo) hi.

(** [x.long()] on a float: truncation toward zero. *)
Definition long (x : R) : Z :=
  if Rlt_dec x 0 then (- Int_part (- x))%Z else Int_part x.

(** The index of a [gather] must lie inside the gathered dimension. *)
Definition index_in {A} (l : list A) (k : Z) : result A :=
  if (k <? 0)%Z then Raise RuntimeError
  else match nth_error l (Z.to_nat k) with
       | Some x => Ok x
       | None => Raise RuntimeError
       end.

(** [input.gather(1, index.view(-1,1)).view(-1)]: entry [i] of the result is
    [input[i][index[i]]].  By the contract of [torch.gather] the index may
    not have more rows than the input ([index.size(0) <= input.size(0)])
    and every index lies within the row; otherwise the call raises. *)
Fixpoint gather (input : mat) (index : list Z) {struct index} : result vec :=
  match index with
  | [] => Ok []
  | k :: index' =>
      match input with
      | [] => Raise RuntimeError
      | row :: input' =>
          rbind (index_in row k) (fun x =>
          rbind (gather input' index') (fun xs => Ok (x :: xs)))
      end
  end.

(** [np.mean] / [tensor.mean()]. *)
Definition mean (v : vec) : R := tsum v / INR (length v).

(** [np.std]: the population standard deviation. *)
Definition std (v : vec) : R :=
  sqrt (mean (map (fun x => (x - mean v) * (x - mean v)) v)).

(** [F.softmax(x, dim=-1)] of one row, over the reals: every entry is
    positive, where a single-precision entry can underflow to 0. *)
Definition softmax (x : vec) : vec :=
  map (fun xi => exp xi / tsum (map exp x)) x.

(** [Normal(loc, scale).log_prob(x)]. *)
Definition normal_log_prob (loc scale x : R) : R :=
  - ((x - loc) * (x - loc)) / (2 * (scale * scale)) - ln scale - ln (sqrt (2 * PI)).

(** [F.mse_loss(input, target)]. *)
Definition mse_loss (input target : vec) : result R :=
  rbind (ewise (fun x y => (x - y) * (x - y)) input target) (fun d => Ok (mean d)).

End Torch.
Export Torch.

Local Open Scope monad_scope.

Notation "x <~ c ;; k" := (rbind c (fun x => k))
  (at level 61, c at next level, right associativity) : monad_scope.
Notation "' pat <~ c ;; k" := (rbind c (fun x => match x with pat => k end))
  (at level 61, pat pattern, c at next level, right associativity) : monad_scope.

(** A [for] loop inside a method: the body threads a loop-carried value. *)
Fixpoint forM {S A B} (body : A -> B -> M S B) (xs : list A) (b : B) : M S B :=
  match xs with
  | [] => ret b
  | x :: xs' => b' <- body x b ;; forM body xs' b'
  end.

(* ================================================================== *)
(** * The trajectory buffer *)

Module Memory.

(** Modelled from the spec: [memory.py] (class [Memory]) is not part of the
    sources.  Following the spec's Trajectory Buffer: four parallel
    sequences, appended in lock-step by the driver; [len] is the number of
    stored transitions; [clear_memory] empties all four.  The agent stores
    [int(action)], so an action is a natural number. *)
Record t : Type := {
  observations : list (list R);
  actions : list nat;
  rewards : list R;
  dones : list bool }.

Definition empty : t :=
  {| observations := []; actions := []; rewards := []; dones := [] |}.

Definition len (m : t) : nat := length (rewards m).

Definition clear_memory (m : t) : t := empty.

Definition append_observation (o : list R) (m : t) : t :=
  {| observations := observations m ++ [o]; actions := actions m;
     rewards := rewards m; dones := dones m |}.

Definition append_action (a : nat) (m : t) : t :=
  {| observations := observations m; actions := actions m ++ [a];
     rewards := rewards m; dones := dones m |}.

Definition append_done (d : bool) (m : t) : t :=
  {| observations := observations m; actions := actions m;
     rewards := rewards m; dones := dones m ++ [d] |}.

Definition append_reward (r : R) (m : t) : t :=
  {| observations := observations m; actions := actions m;
     rewards := rewards m ++ [r]; dones := dones m |}.

(** The buffer invariant of the spec. *)
Definition well_formed (m : t) : Prop :=
  length (observations m) = length (rewards m) /\
  length (actions m) = length (rewards m) /\
  length (dones m) = length (rewards m).

End Memory.

(* ================================================================== *)
(** * Configuration and collaborators *)

Module Config.

(** The [config] dictionary; [config['env']] is represented by the
    [Environment] instance it names. *)
Record t : Type := {
  gamma : R;
  lambda : R;
  c1 : R;
  c2 : R;
  reward_norm : bool;
  loss_name : string;
  beta_KL : R;
  reset_val : option (list R);
  batch_size : nat;
  seed : nat;
  value_network_lr : R;
  actor_network_lr : R;
  eps_clipping : R;
  d_targ : R;
  std : R }.

End Config.

(** [gym.spaces]: the two kinds of action space the agent distinguishes. *)
Inductive space : Type :=
| Discrete (n : nat)
| Box (low high : list R).

(** The simulated environment, [gym.make(config['env'])]. *)
Class Environment : Type := {
  EnvState : Type;
  action_space : space;
  observation_shape : nat;
  make : EnvState;
  env_seed : nat -> EnvState -> EnvState;
  env_reset : EnvState -> list R * EnvState;
  env_step : nat -> EnvState -> (list R * R * bool) * EnvState }.

(** The torch side: the random generator, the layers of [networks.py] and
    the Adam optimisers.  A network value stands for its parameters
    together with the state of its optimiser; [loss.backward()] followed by
    [optimizer.step()] is a function of the current network and of the loss
    seen as a function of the network. *)
Class Estimators : Type := {
  Rng : Type;
  manual_seed : nat -> Rng;
  multinomial : list R -> Rng -> nat * Rng;
  VNet : Type;
  ANet : Type;
  CustomValueNetwork : nat -> nat -> nat -> Rng -> VNet * Rng;
  CustomDiscreteActorNetwork : nat -> nat -> nat -> Rng -> ANet * Rng;
  ContinuousActorNetwork : nat -> nat -> nat -> R -> Rng -> ANet * Rng;
  value_forward : VNet -> list R -> R;
  actor_logits : ANet -> list R -> list R;
  value_optimizer_step : VNet -> (VNet -> result R) -> VNet;
  actor_optimizer_step : ANet -> (ANet -> result R) -> ANet }.

(** [CustomDiscreteActorNetwork.forward]: a softmax over the last layer. *)
Definition actor_forward `{Estimators} (net : ANet) (x : list R) : list R :=
  softmax (actor_logits net x).

(** The small constants of the source. *)
Definition eps_norm : R := 1e-5.
Definition eps_prob : R := 1e-6.

(** [1 - done] for a Python boolean. *)
Definition B2R (b : bool) : R := if b then 1 else 0.

(* ================================================================== *)
(** * The agent *)

Section Agent.
Context {Env : Environment} {Est : Estimators}.

(** [self].  The last two fields are process state that the methods touch:
    the torch random generator and what has been printed so far. *)
Record PPOAgent : Type := {
  config : Config.t;
  memory : Memory.t;
  env : EnvState;
  discrete_action_bool : bool;
  gamma : R;
  lambd : R;
  c1 : R;
  c2 : R;
  norm_reward : bool;
  loss_name : string;
  beta_kl : R;
  reset_val : option (list R);
  batch_size : nat;
  value_network : VNet;
  actor_network : ANet;
  probs_list : list mat;
  mean_list : list mat;
  rng : Rng;
  stdout : list printed }.

Definition set_memory (m : Memory.t) (a : PPOAgent) : PPOAgent :=
  {| config := config a; memory := m; env := env a;
     discrete_action_bool := discrete_action_bool a; gamma := gamma a;
     lambd := lambd a; c1 := c1 a; c2 := c2 a; norm_reward := norm_reward a;
     loss_name := loss_name a; beta_kl := beta_kl a; reset_val := reset_val a;
     batch_size := batch_size a; value_network := value_network a;
     actor_network := actor_network a; probs_list := probs_list a;
     mean_list := mean_list a; rng := rng a; stdout := stdout a |}.

Definition set_env (e : EnvState) (a : PPOAgent) : PPOAgent :=
  {| config := config a; memory := memory a; env := e;
     discrete_action_bool := discrete_action_bool a; gamma := gamma a;
     lambd := lambd a; c1 := c1 a; c2 := c2 a; norm_reward := norm_reward a;
     loss_name := loss_name a; beta_kl := beta_kl a; reset_val := reset_val a;
     batch_size := batch_size a; value_network := value_network a;
     actor_network := actor_network a; probs_list := probs_list a;
     mean_list := mean_list a; rng := rng a; stdout := stdout a |}.


Definition set_beta_kl (b : R) (a : PPOAgent) : PPOAgent :=
  {| config := config a; memory := memory a; env := env a;
     discrete_action_bool := discrete_action_bool a; gamma := gamma a;
     lambd := lambd a; c1 := c1 a; c2 := c2 a; norm_reward := norm_reward a;
     loss_name := loss_name a; beta_kl := b; reset_val := reset_val a;
     batch_size := batch_size a; value_network := value_network a;
     actor_network := actor_network a; probs_list := probs_list a;
     mean_list := mean_list a; rng := rng a; stdout := stdout a |}.

Definition set_value_network (v : VNet) (a : PPOAgent) : PPOAgent :=
  {| config := config a; memory := memory a; env := env a;
     discrete_action_bool := discrete_action_bool a; gamma := gamma a;
     lambd := lambd a; c1 := c1 a; c2 := c2 a; norm_reward := norm_reward a;
     loss_name := loss_name a; beta_kl := beta_kl a; reset_val := reset_val a;
     batch_size := batch_size a; value_network := v;
     actor_network := actor_network a; probs_list := probs_list a;
     mean_list := mean_list a; rng := rng a; stdout := stdout a |}.

Definition set_actor_network (n : ANet) (a : PPOAgent) : PPOAgent :=
  {| config := config a; memory := memory a; env := env a;
     discrete_action_bool := discrete_action_bool a; gamma := gamma a;
     lambd := lambd a; c1 := c1 a; c2 := c2 a; norm_reward := norm_reward a;
     loss_name := loss_name a; beta_kl := beta_kl a; reset_val := reset_val a;
     batch_size := batch_size a; value_network := value_network a;
     actor_network := n; probs_list := probs_list a;
     mean_list := mean_list a; rng := rng a; stdout := stdout a |}.

Definition set_probs_list (l : list mat) (a : PPOAgent) : PPOAgent :=
  {| config := config a; memory := memory a; env := env a;
     discrete_action_bool := discrete_action_bool a; gamma := gamma a;
     lambd := lambd a; c1 := c1 a; c2 := c2 a; norm_reward := norm_reward a;
     loss_name := loss_name a; beta_kl := beta_kl a; reset_val := reset_val a;
     batch_size := batch_size a; value_network := value_network a;
     actor_network := actor_network a; probs_list := l;
     mean_list := mean_list a; rng := rng a; stdout := stdout a |}.

Definition set_mean_list (l : list mat) (a : PPOAgent) : PPOAgent :=
  {| config := config a; memory := memory a; env := env a;
     discrete_action_bool := discrete_action_bool a; gamma := gamma a;
     lambd := lambd a; c1 := c1 a; c2 := c2 a; norm_reward := norm_reward a;
     loss_name := loss_name a; beta_kl := beta_kl a; reset_val := reset_val a;
     batch_size := batch_size a; value_network := value_network a;
     actor_network := actor_network a; probs_list := probs_list a;
     mean_list := l; rng := rng a; stdout := stdout a |}.

Definition set_rng (g : Rng) (a : PPOAgent) : PPOAgent :=
  {| config := config a; memory := memory a; env := env a;
     discrete_action_bool := discrete_action_bool a; gamma := gamma a;
     lambd := lambd a; c1 := c1 a; c2 := c2 a; norm_reward := norm_reward a;
     loss_name := loss_name a; beta_kl := beta_kl a; reset_val := reset_val a;
     batch_size := batch_size a; value_network := value_network a;
     actor_network := actor_network a; probs_list := probs_list a;
     mean_list := mean_list a; rng := g; stdout := stdout a |}.

Definition set_stdout (o : list printed) (a : PPOAgent) : PPOAgent :=
  {| config := config a; memory := memory a; env := env a;
     discrete_action_bool := discrete_action_bool a; gamma := gamma a;
     lambd := lambd a; c1 := c1 a; c2 := c2 a; norm_reward := norm_reward a;
     loss_name := loss_name a; beta_kl := beta_kl a; reset_val := reset_val a;
     batch_size := batch_size a; value_network := value_network a;
     actor_network := actor_network a; probs_list := probs_list a;
     mean_list := mean_list a; rng := rng a; stdout := o |}.

Definition print (p : printed) : M PPOAgent unit :=
  modify (fun a => set_stdout (stdout a ++ [p]) a).

(* ------------------------------------------------------------------ *)
(** ** [PPOAgent.__init__] (lines 20-65) *)

Definition is_discrete (s : space) : bool :=
  match s with
  | Discrete _ => true
  | Box _ _ => false
  end.

(** [action_space.n] for a discrete space, [action_space.shape[0]] for a box. *)
Definition action_size (s : space) : nat :=
  match s with
  | Discrete n => n
  | Box low _ => length low
  end.

(** Lines 54-58: the actor is built by the class the branch names. *)
Definition make_actor (cfg : Config.t) (discrete : bool) (g : Rng)
  : result (ANet * Rng) :=
  if discrete then
    _ <~ global "CustomDiscreteActorNetwork" ;;
    Ok (CustomDiscreteActorNetwork observation_shape 64 (action_size action_space) g)
  else
    _ <~ global "ContinuousActorNetwork" ;;
    Ok (ContinuousActorNetwork observation_shape 64 (action_size action_space)
          (Config.std cfg) g).

Definition __init__ (cfg : Config.t) : result PPOAgent :=
  _ <~ global "Memory" ;;
  _ <~ global "gym" ;;
  let env0 := make in
  _ <~ global "isinstance" ;;
  _ <~ global "Discrete" ;;
  let discrete := is_discrete action_space in
  let out :=
    match action_space with
    | Discrete _ => []
    | Box low high => [Labelled "Low : " low; Labelled "High : " high]
    end in
  _ <~ global "np" ;;
  _ <~ global "torch" ;;
  let g := manual_seed (Config.seed cfg) in
  let env1 := env_seed (Config.seed cfg) env0 in
  _ <~ global "CustomValueNetwork" ;;
  let '(vnet, g) := CustomValueNetwork observation_shape 64 1 g in
  _ <~ global "optim" ;;
  '(anet, g) <~ make_actor cfg discrete g ;;
  _ <~ global "optim" ;;
  Ok {| config := cfg; memory := Memory.empty; env := env1;
        discrete_action_bool := discrete;
        gamma := Config.gamma cfg; lambd := Config.lambda cfg;
        c1 := Config.c1 cfg; c2 := Config.c2 cfg;
        norm_reward := Config.reward_norm cfg;
        loss_name := Config.loss_name cfg; beta_kl := Config.beta_KL cfg;
        reset_val := Config.reset_val cfg; batch_size := Config.batch_size cfg;
        value_network := vnet; actor_network := anet;
        probs_list := []; mean_list := []; rng := g; stdout := out |}.

(* ------------------------------------------------------------------ *)
(** ** [PPOAgent._returns_advantages] (lines 67-110) *)

(** Line 91: the divisor of the reward normalisation. *)
Definition normalization_divisor (rewards : vec) : R := std rewards + eps_norm.

(** Line 91: [(rewards - rewards.mean()) / (rewards.std() + 1e-5)], over
    the reals (no rounding in the mean or in the standard deviation). *)
Definition normalize (rewards : vec) : vec :=
  map (fun r => (r - mean rewards) / normalization_divisor rewards) rewards.

(** The variables the loop of lines 97-105 assigns.  [last] is not among
    them: it is assigned once, on line 94, before the loop. *)
Record gae_locals : Type := {
  returns : vec;
  advantages : vec;
  gae : R;
  next_value : R }.

(** Lines 98-105, one iteration. *)
Definition gae_body (gamma lambd last : R) (rewards : vec) (dones : list bool)
    (values : vec) (i : nat) (l : gae_locals) : result gae_locals :=
  r <~ getitem rewards (Z.of_nat i) ;;
  d <~ getitem dones (Z.of_nat i) ;;
  let ret_i := r + gamma * last * (1 - B2R d) in
  v <~ getitem values (Z.of_nat i) ;;
  let delta := r + gamma * next_value l * (1 - B2R d) - v in
  let gae' := delta + gamma * lambd * (1 - B2R d) * gae l in
  Ok {| returns := ret_i :: returns l;
        advantages := gae' :: advantages l;
        gae := gae';
        next_value := v |}.

Definition _returns_advantages (values : vec) (next_value0 : R)
  : M PPOAgent (vec * vec) :=
  self <- get ;;
  let rewards := Memory.rewards (memory self) in
  let rewards := if norm_reward self then normalize rewards else rewards in
  let last := next_value0 in
  l <- lift (for_each
               (gae_body (gamma self) (lambd self) last rewards
                  (Memory.dones (memory self)) values)
               (reversed_range (Memory.len (memory self)))
               {| returns := []; advantages := []; gae := 0;
                  next_value := next_value0 |}) ;;
  ret (returns l, advantages l).

(* ------------------------------------------------------------------ *)
(** ** [PPOAgent.A2C_loss] (lines 199-206) *)

(** Lines 202-203, one iteration: [loss -= log(prob[i, int(actions[i])] + 1e-6)
    * advantages[i]]. *)
Definition A2C_body (prob : mat) (actions advantages : vec) (i : nat) (loss : R)
  : result R :=
  a <~ getitem actions (Z.of_nat i) ;;
  row <~ getitem prob (Z.of_nat i) ;;
  p <~ getitem row (long a) ;;
  adv <~ getitem advantages (Z.of_nat i) ;;
  Ok (loss - ln (p + eps_prob) * adv).

Definition A2C_loss (prob : mat) (actions advantages : vec) : M PPOAgent R :=
  self <- get ;;
  if discrete_action_bool self then
    lift (for_each (A2C_body prob actions advantages) (seq 0 (length actions)) 0)
  else
    lift (dot (map (fun p => ln (p + eps_prob)) (flatten prob)) advantages).

(* ------------------------------------------------------------------ *)
(** ** [PPOAgent.compute_proba_ratio] (lines 209-243) *)

(** Lines 213-217 and 220-223: the entry of a snapshot history that serves
    as old policy. *)
Definition old_policy {A} (history : list A) : result A :=
  if (length history =? 1)%nat then getitem history 0
  else getitem history (Z.of_nat (length history) - 2).

(** Lines 231-233: the two gathered vectors of the discrete ratio; the
    second one is the divisor. *)
Definition discrete_ratio_num (prob : mat) (actions : vec) : result vec :=
  gather prob (map long actions).
Definition discrete_ratio_denom (old_prob : mat) (actions : vec) : result vec :=
  gather old_prob (map long actions).

(** Line 238: the divisor of the continuous ratio. *)
Definition continuous_ratio_denom (old_prob : vec) : vec :=
  map (fun p => p + eps_prob) old_prob.

(** The continuous branch evaluates the names [normal] and [config]
    (line 225), which no statement of the module binds; the lines after
    them are transcribed for one-dimensional actions.

    Lines 240-241 test the ratio for NaN and print a diagnostic.  A NaN
    arises only where a divisor is 0, and there the quotient of the reals
    is not the code's: the model is the code where every gathered old
    probability is non-zero, where the test fails and nothing is printed.
    The statements that assert the value of a ratio or the lines printed
    carry that proviso. *)
Definition compute_proba_ratio (prob : mat) (actions : vec)
  : M PPOAgent (vec * mat) :=
  self <- get ;;
  if discrete_action_bool self then
    old_prob <- lift (old_policy (probs_list self)) ;;
    num <- lift (discrete_ratio_num prob actions) ;;
    denom <- lift (discrete_ratio_denom old_prob actions) ;;
    ratio_vect <- lift (ewise Rdiv num denom) ;;
    ret (ratio_vect, old_prob)
  else
    old_prob_mean <- lift (old_policy (mean_list self)) ;;
    _ <- lift (global "normal") ;;
    _ <- lift (global "torch") ;;
    _ <- lift (global "config") ;;
    let scale := Config.std (config self) in
    let old_prob :=
      zip_with (fun mu a => normal_log_prob mu scale a)
        (flatten old_prob_mean) actions in
    ratio_vect <- lift (ewise Rdiv (flatten prob) (continuous_ratio_denom old_prob)) ;;
    ret (ratio_vect, map (fun p => [p]) old_prob).

(* ------------------------------------------------------------------ *)
(** ** [PPOAgent.clipped_loss] (lines 246-256) *)

(** Lines 253-255: the clipped surrogate of a ratio vector.  The action
    tensor of the model is 1-D, so the product of line 250 is not taken. *)
Definition clipped_surrogate (eps : R) (ratio_vect advantages : vec) : result R :=
  loss1 <~ ewise Rmult ratio_vect advantages ;;
  loss2 <~ ewise Rmult (map (clamp (1 - eps) (1 + eps)) ratio_vect) advantages ;;
  m <~ ewise Rmin loss1 loss2 ;;
  Ok (- tsum m).

Definition clipped_loss (prob : mat) (actions advantages : vec) : M PPOAgent R :=
  '(ratio_vect, _) <- compute_proba_ratio prob actions ;;
  self <- get ;;
  lift (clipped_surrogate (Config.eps_clipping (config self)) ratio_vect advantages).

(* ------------------------------------------------------------------ *)
(** ** [PPOAgent.adaptative_KL_loss] (lines 259-286) *)

(** Lines 264-265, one iteration.  The logarithm is the real one, which
    agrees with [torch.log] on positive arguments only: on a row that holds
    a zero probability the code's term is infinite or NaN, values the reals
    do not have.  The properties of the divergence below are stated for
    rows of positive probabilities. *)
Definition kl_body (old_prob prob : mat) (i : nat) (kl : R) : result R :=
  o <~ getitem old_prob (Z.of_nat i) ;;
  p <~ getitem prob (Z.of_nat i) ;;
  d <~ ewise Rminus (map ln o) (map ln p) ;;
  t <~ ewise Rmult o d ;;
  Ok (kl + tsum t).

(** Lines 281-284: the new coefficient. *)
Definition update_beta (d_targ kl beta : R) : R :=
  if Rlt_dec kl (d_targ / 1.5) then beta / 2
  else if Rgt_dec kl (d_targ * 1.5) then beta * 2
  else beta.

(** Lines 276-286. *)
Definition kl_penalised (ratio_vect advantages : vec) (kl : R) : M PPOAgent R :=
  self <- get ;;
  t <- lift (ewise Rmult ratio_vect advantages) ;;
  let loss := - tsum t + beta_kl self * kl in
  _ <- modify (set_beta_kl (update_beta (Config.d_targ (config self)) kl (beta_kl self))) ;;
  self <- get ;;
  _ <- print (Number (beta_kl self)) ;;
  ret loss.

(** Lines 259-286.  Lines 279-280 test the divergence for NaN and print a
    diagnostic; the divergence is NaN only where a probability of the old
    or the current policy is 0 (see [kl_body]), so that on rows of positive
    probabilities the test fails and the only line printed is the new
    coefficient of line 285. *)
Definition adaptative_KL_loss (prob : mat) (actions advantages : vec)
    (observations : mat) : M PPOAgent R :=
  self <- get ;;
  if discrete_action_bool self then
    '(ratio_vect, old_prob) <- compute_proba_ratio prob actions ;;
    kl <- lift (for_each (kl_body old_prob prob) (seq 0 (length prob)) 0) ;;
    kl_penalised ratio_vect advantages kl
  else
    '(ratio_vect, _) <- compute_proba_ratio prob actions ;;
    self <- get ;;
    kl <- (if (length (mean_list self) =? 1)%nat then ret 0
           else
             let mu := flatten prob in
             mu_old <- lift (getitem (mean_list self)
                               (Z.of_nat (length (mean_list self)) - 2)) ;;
             let mu_old := flatten mu_old in
             d <- lift (ewise Rminus mu mu_old) ;;
             _ <- lift (global "torch") ;;
             _ <- lift (global "config") ;;
             q <- lift (ewise Rdiv d
                          (map (fun _ => Config.std (config self)) actions)) ;;
             s <- lift (dot q d) ;;
             ret (s / 2)) ;;
    kl_penalised ratio_vect advantages kl.

(* ------------------------------------------------------------------ *)
(** ** [PPOAgent.optimize_model] (lines 288-370) *)

(** The three metric lists of line 290. *)
Record losses : Type := {
  loss_list : list R;
  dry_loss_list : list R;
  entropy_list : list R }.

(** Line 325, [self.actor_network(batch_observations)]: the forward pass of
    the discrete actor; [ContinuousActorNetwork.forward] raises
    ([networks.py], lines 81-82). *)
Definition actor_call (net : ANet) (discrete : bool) (batch : mat) : result mat :=
  if discrete then Ok (map (actor_forward net) batch)
  else Raise NotImplementedError.

(** Lines 327-335: the policy output joins the snapshot history. *)
Definition record_policy (prob : mat) (actions : vec) : M PPOAgent unit :=
  self <- get ;;
  if discrete_action_bool self then
    modify (set_probs_list (probs_list self ++ [prob]))
  else
    _ <- lift (global "normal") ;;
    _ <- lift (global "torch") ;;
    _ <- lift (global "config") ;;
    let logprob :=
      zip_with (fun mu a => normal_log_prob mu (Config.std (config self)) a)
        (flatten prob) actions in
    _ <- modify (set_probs_list (probs_list self ++ [map (fun l => [exp l]) logprob])) ;;
    self <- get ;;
    modify (set_mean_list (mean_list self ++ [prob])).

(** Lines 337-348: the objective named by [self.loss_name]. *)
Definition select_loss (name : string)
  : mat -> vec -> vec -> mat -> M PPOAgent R :=
  if (name =? "clipped_loss")%string then
    fun prob batch_actions batch_advantages _ =>
      clipped_loss prob batch_actions batch_advantages
  else if (name =? "adaptative_KL_loss")%string then
    fun prob batch_actions batch_advantages batch_observations =>
      adaptative_KL_loss prob batch_actions batch_advantages batch_observations
  else if (name =? "A2C_loss")%string then
    fun prob batch_actions batch_advantages _ =>
      A2C_loss prob batch_actions batch_advantages
  else
    fun prob batch_actions batch_advantages _ =>
      clipped_loss prob batch_actions batch_advantages.

(** Line 351. *)
Definition entropy (prob : mat) : R :=
  - msum (map (map (fun p => p * ln (p + eps_prob))) prob).

(** The critic loss of lines 316-317 as a function of the critic. *)
Definition critic_loss (batch_observations : mat) (batch_returns : vec)
    (net : VNet) : result R :=
  mse_loss (map (value_forward net) batch_observations) batch_returns.

(** The actor loss of lines 325-353 as a function of the actor, the rest of
    the agent being as it is once the snapshot has been recorded. *)
Definition actor_loss (self : PPOAgent) (batch_observations : mat)
    (batch_actions batch_advantages : vec) (net : ANet) : result R :=
  prob <~ actor_call net (discrete_action_bool self) batch_observations ;;
  '(loss, _) <~ select_loss (loss_name self) prob batch_actions batch_advantages
                  batch_observations self ;;
  Ok (loss - c2 self * entropy prob).

(** Lines 308-368, one minibatch.  [dry_loss] is bound to the tensor that
    [loss -= ...] then updates in place, so both metrics read the same value. *)
Definition minibatch (observations : mat) (actions returns advantages : vec)
    (i : nat) (ls : losses) : M PPOAgent losses :=
  self <- get ;;
  let stop := (i + batch_size self)%nat in
  let batch_observations := slice observations i stop in
  let batch_actions := slice actions i stop in
  let batch_returns := slice returns i stop in
  let batch_advantages := slice advantages i stop in
  _ <- lift (critic_loss batch_observations batch_returns (value_network self)) ;;
  _ <- modify (set_value_network
                 (value_optimizer_step (value_network self)
                    (critic_loss batch_observations batch_returns))) ;;
  prob <- lift (actor_call (actor_network self) (discrete_action_bool self)
                  batch_observations) ;;
  _ <- record_policy prob actions ;;
  recorded <- get ;;
  loss <- select_loss (loss_name recorded) prob batch_actions batch_advantages
            batch_observations ;;
  let entropy_term := entropy prob in
  let loss := loss - c2 recorded * entropy_term in
  let dry_loss := loss in
  self <- get ;;
  _ <- modify (set_actor_network
                 (actor_optimizer_step (actor_network self)
                    (actor_loss recorded batch_observations batch_actions
                       batch_advantages))) ;;
  ret {| loss_list := loss_list ls ++ [loss];
         dry_loss_list := dry_loss_list ls ++ [dry_loss];
         entropy_list := entropy_list ls ++ [entropy_term] |}.

(** Line 299, [self.value_network(observations)]: the critic on the batch
    of buffered observations.  The tensor built from an empty buffer is 1-D
    of size 0: the first layer rejects it, unless the observations have no
    feature, in which case it is taken for one such observation. *)
Definition critic_call (net : VNet) (batch : mat) : result vec :=
  match batch with
  | [] => if (observation_shape =? 0)%nat then Ok [value_forward net []]
          else Raise RuntimeError
  | _ :: _ => Ok (map (value_forward net) batch)
  end.

Definition optimize_model (next_obs : list R) : M PPOAgent (R * R * R) :=
  self <- get ;;
  let observations := Memory.observations (memory self) in
  let actions := map INR (Memory.actions (memory self)) in
  let next_value := value_forward (value_network self) next_obs in
  values <- lift (critic_call (value_network self) observations) ;;
  '(returns, advantages) <- _returns_advantages values next_value ;;
  self <- get ;;
  starts <- lift (range_step (length returns) (batch_size self)) ;;
  ls <- forM (minibatch observations actions returns advantages) starts
          {| loss_list := []; dry_loss_list := []; entropy_list := [] |} ;;
  ret (mean (loss_list ls), mean (dry_loss_list ls), mean (entropy_list ls)).

(* ------------------------------------------------------------------ *)
(** ** [PPOAgent.training] (lines 115-195): banner, step and trigger

    The periodic evaluation (lines 172-177) and the assembly of the result
    tables (lines 182-195) read the agent's networks only; they are not part
    of the embedding. *)


(** [CustomDiscreteActorNetwork.select_action] followed by [int(action)]. *)
Definition select_action (x : list R) : M PPOAgent nat :=
  self <- get ;;
  let '(k, g) := multinomial (actor_forward (actor_network self) x) (rng self) in
  _ <- modify (set_rng g) ;;
  ret k.

(** The local variables of [training] that the step loop updates. *)
Record locals : Type := {
  timestep_count : nat;
  obs : list R;
  loss_evol : list (R * R * R) }.

(** Lines 160-167: the epochs of one optimize trigger, then the buffer is
    cleared. *)
Definition optimize_trigger (epochs : nat) (obs : list R)
    (loss_evol : list (R * R * R)) : M PPOAgent (list (R * R * R)) :=
  loss_evol <-
    forM (fun epoch evol =>
            m <- optimize_model obs ;;
            ret (if (epoch =? epochs - 1)%nat then evol ++ [m] else evol))
      (seq 0 epochs) loss_evol ;;
  _ <- modify (fun a => set_memory (Memory.clear_memory (memory a)) a) ;;
  ret loss_evol.

(** Lines 142-170, one step; the boolean is [done]. *)
Definition training_step (epochs optimize_every : nat) (l : locals)
  : M PPOAgent (locals * bool) :=
  let timestep_count := S (timestep_count l) in
  _ <- modify (fun a => set_memory (Memory.append_observation (obs l) (memory a)) a) ;;
  action <- select_action (obs l) ;;
  _ <- modify (fun a => set_memory (Memory.append_action action (memory a)) a) ;;
  self <- get ;;
  let '(obs', reward, done, e) := env_step action (env self) in
  _ <- modify (set_env e) ;;
  _ <- modify (fun a => set_memory (Memory.append_done done (memory a)) a) ;;
  _ <- modify (fun a => set_memory (Memory.append_reward reward (memory a)) a) ;;
  evol <- match optimize_every with
          | O => lift (Raise ZeroDivisionError)
          | S _ =>
              if (timestep_count mod optimize_every =? 0)%nat
              then optimize_trigger epochs obs' (loss_evol l)
              else ret (loss_evol l)
          end ;;
  ret ({| timestep_count := timestep_count; obs := obs'; loss_evol := evol |}, done).

(** Lines 141-170: at most [max_steps] steps, stopping at [done]. *)
Fixpoint training_steps (epochs optimize_every max_steps : nat) (l : locals)
  : M PPOAgent locals :=
  match max_steps with
  | O => ret l
  | S n =>
      '(l', done) <- training_step epochs optimize_every l ;;
      if done then ret l' else training_steps epochs optimize_every n l'
  end.

(** Lines 138-170: one episode of the training loop. *)
Definition training_episode (epochs optimize_every max_steps : nat) (l : locals)
  : M PPOAgent locals :=
  self <- get ;;
  let '(o, e) := env_reset (env self) in
  _ <- modify (set_env e) ;;
  training_steps epochs optimize_every max_steps
    {| timestep_count := timestep_count l; obs := o; loss_evol := loss_evol l |}.

End Agent.

(* ================================================================== *)
(** * Concrete collaborators *)

Module Scenario.

(** A two-action environment: reward [+1] at every step, [done] at the
    third step of an episode.  The state counts the steps of the episode. *)
Definition three_step_env : Environment :=
  {| EnvState := nat;
     action_space := Discrete 2;
     observation_shape := 1;
     make := 0%nat;
     env_seed := fun _ s => s;
     env_reset := fun _ => ([0], 0%nat);
     env_step := fun _ s => (([INR (S s)], 1, (S s =? 3)%nat), S s) |}.

(** A one-dimensional continuous-action environment. *)
Definition box_env : Environment :=
  {| EnvState := nat;
     action_space := Box [-2] [2];
     observation_shape := 3;
     make := 0%nat;
     env_seed := fun _ s => s;
     env_reset := fun _ => ([0; 0; 0], 0%nat);
     env_step := fun _ s => (([0; 0; 0], 0, false), S s) |}.

(** Networks that ignore their input and that no optimiser step moves: the
    critic is a constant, the actor a constant pair of logits (two
    actions).  The generator is a counter. *)
Definition frozen : Estimators :=
  {| Rng := nat;
     manual_seed := fun s => s;
     multinomial := fun p g => ((g mod length p)%nat, S g);
     VNet := R;
     ANet := R * R;
     CustomValueNetwork := fun _ _ _ g => (0, g);
     CustomDiscreteActorNetwork := fun _ _ _ g => ((0, 0), g);
     ContinuousActorNetwork := fun _ _ _ _ g => ((0, 0), g);
     value_forward := fun v _ => v;
     actor_logits := fun a _ => [fst a; snd a];
     value_optimizer_step := fun v _ => v;
     actor_optimizer_step := fun a _ => a |}.

Definition cfg (loss : string) (norm : bool) (batch : nat) : Config.t :=
  {| Config.gamma := 1; Config.lambda := 1; Config.c1 := 0; Config.c2 := 0;
     Config.reward_norm := norm; Config.loss_name := loss;
     Config.beta_KL := 1; Config.reset_val := None;
     Config.batch_size := batch; Config.seed := 0%nat;
     Config.value_network_lr := 0; Config.actor_network_lr := 0;
     Config.eps_clipping := 0.2; Config.d_targ := 0.01; Config.std := 1 |}.

(** An agent over [frozen] estimators, given its buffer, its two snapshot
    histories and the kind of its action space. *)
Definition agent (E : Environment) (c : Config.t) (discrete : bool)
    (m : Memory.t) (probs means : list mat) : @PPOAgent E frozen :=
  {| config := c; memory := m; env := make;
     discrete_action_bool := discrete;
     gamma := Config.gamma c; lambd := Config.lambda c;
     c1 := Config.c1 c; c2 := Config.c2 c;
     norm_reward := Config.reward_norm c;
     loss_name := Config.loss_name c; beta_kl := Config.beta_KL c;
     reset_val := Config.reset_val c; batch_size := Config.batch_size c;
     value_network := (0 : @VNet frozen);
     actor_network := ((0, 0) : @ANet frozen);
     probs_list := probs; mean_list := means;
     rng := (0%nat : @Rng frozen); stdout := [] |}.

(** A fresh discrete agent with batch size [batch], and the locals of
    [training] before the first episode. *)
Definition fresh (loss : string) (batch : nat) : @PPOAgent three_step_env frozen :=
  agent three_step_env (cfg loss false batch) true Memory.empty [] [].

Definition start : locals :=
  {| timestep_count := 0; obs := []; loss_evol := [] |}.

(** A discrete agent whose snapshot history holds one snapshot. *)
Definition one_snapshot (p : mat) : @PPOAgent three_step_env frozen :=
  agent three_step_env (cfg "adaptative_KL_loss" false 1) true Memory.empty [p] [].

(** The snapshot history at the first minibatch of a second sweep over
    three transitions with batch size 2: the snapshots of the first sweep
    (two rows, then one row), then the current one (two rows). *)
Definition second_sweep : @PPOAgent three_step_env frozen :=
  agent three_step_env (cfg "clipped_loss" false 2) true Memory.empty
    [ [[0.5; 0.5]; [0.5; 0.5]]; [[0.5; 0.5]]; [[0.5; 0.5]; [0.5; 0.5]] ] [].

(** A continuous agent, as it would be if one could be built; its mean
    history holds one entry. *)
Definition continuous : @PPOAgent box_env frozen :=
  agent box_env (cfg "A2C_loss" false 1) false Memory.empty [] [[[0]]].

(** Two buffered transitions without [done], reward 1 each. *)
Definition two_steps : @PPOAgent three_step_env frozen :=
  agent three_step_env (cfg "clipped_loss" false 1) true
    {| Memory.observations := [[0]; [1]]; Memory.actions := [0; 0]%nat;
       Memory.rewards := [1; 1]; Memory.dones := [false; false] |} [] [].

(** Three buffered transitions with rewards 1, 2, 3 and reward
    normalisation enabled. *)
Definition normalising : @PPOAgent three_step_env frozen :=
  agent three_step_env (cfg "clipped_loss" true 3) true
    {| Memory.observations := [[0]; [1]; [2]]; Memory.actions := [0; 0; 0]%nat;
       Memory.rewards := [1; 2; 3]; Memory.dones := [false; false; true] |} [] [].

End Scenario.

(* ================================================================== *)
(** * The networks of [networks.py], layer by layer

    A network is given by its [nn.Linear] layers and is applied to one
    observation (a 1-D tensor).  The [Estimators] of the agent stand for
    these networks when every shape fits. *)

Module Networks.

(** [nn.Linear]: [weight] has one row per output feature. *)
Record Linear : Type := {
  weight : mat;
  bias : vec }.

(** The shape [nn.Linear(inputs, outputs)] gives a layer. *)
Definition shaped (inputs outputs : nat) (l : Linear) : Prop :=
  length (weight l) = outputs /\
  Forall (fun row => length row = inputs) (weight l) /\
  length (bias l) = outputs.

Fixpoint traverse {A B} (f : A -> result B) (l : list A) : result (list B) :=
  match l with
  | [] => Ok []
  | x :: l' => y <~ f x ;; ys <~ traverse f l' ;; Ok (y :: ys)
  end.

(** [layer(x)]: the product of the weight with [x], plus the bias. *)
Definition linear (l : Linear) (x : vec) : result vec :=
  y <~ traverse (fun row => dot row x) (weight l) ;;
  ewise Rplus y (bias l).

(** [F.relu]. *)
Definition relu (x : R) : R := Rmax x 0.

Module CustomValueNetwork.

Record t : Type := {
  fc1 : Linear;
  fc2 : Linear;
  fc3 : Linear }.

(** Lines 30-34. *)
Definition forward (net : t) (x : vec) : result vec :=
  out <~ linear (fc1 net) x ;;
  let out := map relu out in
  out <~ linear (fc2 net) out ;;
  let out := map relu out in
  linear (fc3 net) out.

(** Lines 36-37: the first entry of the output. *)
Definition predict (net : t) (x : vec) : result R :=
  out <~ forward net x ;;
  getitem out 0.

End CustomValueNetwork.

Module CustomDiscreteActorNetwork.

Record t : Type := {
  fc1 : Linear;
  fc2 : Linear;
  fc3 : Linear }.

(** Lines 54-59; the second layer is applied twice. *)
Definition forward (net : t) (x : vec) : result vec :=
  out <~ linear (fc1 net) x ;;
  let out := map tanh out in
  out <~ linear (fc2 net) out ;;
  let out := map tanh out in
  out <~ linear (fc2 net) out ;;
  let out := map tanh out in
  out <~ linear (fc3 net) out ;;
  Ok (softmax out).

End CustomDiscreteActorNetwork.

Module ContinuousActorNetwork.

Record t : Type := {
  fc1 : Linear;
  fc2 : Linear;
  fc3 : Linear;
  std : R }.

(** Lines 81-82. *)
Definition forward (net : t) (x : vec) : result vec :=
  Raise NotImplementedError.

(** Lines 84-95; over the reals the NaN test of line 91 never fires. *)
Definition evaluate (net : t) (x : vec) : result vec :=
  out <~ linear (fc1 net) x ;;
  let out := map tanh out in
  out <~ linear (fc2 net) out ;;
  let out := map tanh out in
  out <~ linear (fc2 net) out ;;
  let out := map tanh out in
  out <~ linear (fc3 net) out ;;
  Ok (map tanh out).

End ContinuousActorNetwork.

End Networks.

(* ================================================================== *)
(** * Further concrete inputs *)

Module Examples.

(** The layer [y = x] from one feature to one feature. *)
Definition identity_layer : Networks.Linear :=
  {| Networks.weight := [[1]]; Networks.bias := [0] |}.

Definition value_net : Networks.CustomValueNetwork.t :=
  {| Networks.CustomValueNetwork.fc1 := identity_layer;
     Networks.CustomValueNetwork.fc2 := identity_layer;
     Networks.CustomValueNetwork.fc3 := identity_layer |}.

Definition discrete_net : Networks.CustomDiscreteActorNetwork.t :=
  {| Networks.CustomDiscreteActorNetwork.fc1 := identity_layer;
     Networks.CustomDiscreteActorNetwork.fc2 := identity_layer;
     Networks.CustomDiscreteActorNetwork.fc3 := identity_layer |}.

Definition continuous_net : Networks.ContinuousActorNetwork.t :=
  {| Networks.ContinuousActorNetwork.fc1 := identity_layer;
     Networks.ContinuousActorNetwork.fc2 := identity_layer;
     Networks.ContinuousActorNetwork.fc3 := identity_layer;
     Networks.ContinuousActorNetwork.std := 1 |}.

(** Three buffered transitions, the last one flagged [done]. *)
Definition buffer : Memory.t :=
  {| Memory.observations := [[0]; [1]; [2]]; Memory.actions := [0; 1; 0]%nat;
     Memory.rewards := [1; 2; 3]; Memory.dones := [false; false; true] |}.

(** A configuration with [lambda = 0]. *)
Definition td_cfg : Config.t :=
  {| Config.gamma := 1; Config.lambda := 0; Config.c1 := 0; Config.c2 := 0;
     Config.reward_norm := false; Config.loss_name := "clipped_loss";
     Config.beta_KL := 1; Config.reset_val := None;
     Config.batch_size := 2; Config.seed := 0%nat;
     Config.value_network_lr := 0; Config.actor_network_lr := 0;
     Config.eps_clipping := 0.2; Config.d_targ := 0.01; Config.std := 1 |}.

Definition td_agent : @PPOAgent Scenario.three_step_env Scenario.frozen :=
  Scenario.agent Scenario.three_step_env td_cfg true buffer [] [].

(** A discrete agent with batch size [batch] over the buffer. *)
Definition buffered (batch : nat) : @PPOAgent Scenario.three_step_env Scenario.frozen :=
  Scenario.agent Scenario.three_step_env (Scenario.cfg "adaptative_KL_loss" false batch)
    true buffer [] [].


End Examples.

(* ================================================================== *)
(** * The specification's formulas, for comparison with the code *)

Module Spec.

(** The continuous A2C loss as the specification words it: the negative of
    the dot product of [log(prob.flattened + eps)] with the advantages. *)
Definition A2C_continuous (prob : mat) (advantages : vec) : result R :=
  d <~ dot (map (fun p => ln (p + eps_prob)) (flatten prob)) advantages ;;
  Ok (- d).

(** The accumulators of the specification's advantage estimator. *)
Record gae_state : Type := {
  returns : vec;
  advantages : vec;
  last : R;
  gae : R;
  next_value : R }.

(** The specification's reverse recursion over the transitions
    [(reward, done, value)], first transition first: the transitions after
    the current one have been processed when the current one is.  Both
    [last] and [next_value] start at the bootstrap value and advance to
    [value[i]]. *)
Fixpoint estimate (gamma lambd : R) (steps : list (R * bool * R)) (bootstrap : R)
  : gae_state :=
  match steps with
  | [] => {| returns := []; advantages := []; last := bootstrap; gae := 0;
             next_value := bootstrap |}
  | (r, d, v) :: rest =>
      let s := estimate gamma lambd rest bootstrap in
      let delta := r + gamma * next_value s * (1 - B2R d) - v in
      let g := delta + gamma * lambd * (1 - B2R d) * gae s in
      {| returns := (r + gamma * last s * (1 - B2R d)) :: returns s;
         advantages := g :: advantages s;
         last := v;
         gae := g;
         next_value := v |}
  end.

End Spec.

(** The same recursion with [last] as the code has it: assigned once from
    the bootstrap value and never advanced. *)
Fixpoint estimate_code (gamma lambd : R) (steps : list (R * bool * R))
    (bootstrap : R) : gae_locals :=
  match steps with
  | [] => {| returns := []; advantages := []; gae := 0; next_value := bootstrap |}
  | (r, d, v) :: rest =>
      let l := estimate_code gamma lambd rest bootstrap in
      let delta := r + gamma * next_value l * (1 - B2R d) - v in
      let g := delta + gamma * lambd * (1 - B2R d) * gae l in
      {| returns := (r + gamma * bootstrap * (1 - B2R d)) :: returns l;
         advantages := g :: advantages l;
         gae := g;
         next_value := v |}
  end.

(** The transitions the estimator walks over. *)
Definition transitions (rewards : vec) (dones : list bool) (values : vec)
  : list (R * bool * R) :=
  combine (combine rewards dones) values.

(** The rewards the estimator consumes (lines 89-91). *)
Definition consumed_rewards {Env : Environment} {Est : Estimators}
    (self : PPOAgent) : vec :=
  if norm_reward self then normalize (Memory.rewards (memory self))
  else Memory.rewards (memory self).




(** What an objective leaves untouched in the agent. *)
Definition keeps_setup {Env : Environment} {Est : Estimators}
    (s s' : PPOAgent) : Prop :=
  discrete_action_bool s' = discrete_action_bool s /\
  batch_size s' = batch_size s /\
  memory s' = memory s /\
  probs_list s' = probs_list s.

(** The agent once a step of the driver has stored its transition (lines
    143-156): the observation, the sampled action [k] with the generator
    [g] it leaves, then the outcome of the environment step. *)
Definition stored {Env : Environment} {Est : Estimators}
    (o : list R) (k : nat) (g : Rng) (r : R) (d : bool) (e : EnvState)
    (s : PPOAgent) : PPOAgent :=
  let s := set_memory (Memory.append_observation o (memory s)) s in
  let s := set_rng g s in
  let s := set_memory (Memory.append_action k (memory s)) s in
  let s := set_env e s in
  let s := set_memory (Memory.append_done d (memory s)) s in
  set_memory (Memory.append_reward r (memory s)) s.


(** [1 + q + ... + q^(k-1)]. *)
Fixpoint geometric (q : R) (k : nat) : R :=
  match k with
  | O => 0
  | S k' => 1 + q * geometric q k'
  end.

(** The advantage of the transition that has [k] transitions after it, in
    a buffer without [done] whose rewards are all [r] and whose values are
    all [v], for the bootstrap value [b]. *)
Definition constant_advantage (g l r v b : R) (k : nat) : R :=
  (r + g * v - v) * geometric (g * l) k + (g * l) ^ k * (r + g * b - v).

(** [ceil(n / d)]. *)
Definition ceil_div (n d : nat) : nat := ((n + d - 1) / d)%nat.

(** A snapshot history is usable as old policy for a minibatch of [rows]
    rows over [cols] actions when it is empty or its last snapshot has at
    least that many rows, each of [cols] probabilities. *)
Definition snapshot_fits (rows cols : nat) (history : list mat) : Prop :=
  match rev history with
  | [] => True
  | p :: _ => (rows <= length p)%nat /\ Forall (fun row => length row = cols) p
  end.

(* ================================================================== *)
(** * Facts about tensors *)

Lemma eps_prob_pos : 0 < eps_prob.
Proof. unfold eps_prob. lra. Qed.

Lemma eps_norm_pos : 0 < eps_norm.
Proof. unfold eps_norm. lra. Qed.

Lemma zip_with_length {A B C} (f : A -> B -> C) (a : list A) (b : list B) :
  length a = length b -> length (zip_with f a b) = length a.
Proof.
  revert b. induction a as [|x a IH]; intros [|y b] H; simpl in *; try easy.
  f_equal. apply IH. lia.
Qed.

Lemma zip_with_diag {A C} (f : A -> A -> C) (a : list A) :
  zip_with f a a = map (fun x => f x x) a.
Proof. induction a as [|x a IH]; simpl; [reflexivity|]. now rewrite IH. Qed.

Lemma zip_with_zip_with (f g h : R -> R -> R) (a b : vec) :
  zip_with h (zip_with f a b) (zip_with g a b) =
  zip_with (fun x y => h (f x y) (g x y)) a b.
Proof.
  revert b. induction a as [|x a IH]; intros [|y b]; simpl; try reflexivity.
  now rewrite IH.
Qed.

Lemma zip_with_map_l {A A' B C} (f : A' -> B -> C) (g : A -> A')
    (a : list A) (b : list B) :
  zip_with f (map g a) b = zip_with (fun x y => f (g x) y) a b.
Proof.
  revert b. induction a as [|x a IH]; intros [|y b]; simpl; try reflexivity.
  now rewrite IH.
Qed.

Lemma ewise_same_length f (a b : vec) :
  length a = length b -> ewise f a b = Ok (zip_with f a b).
Proof. intros H. unfold ewise. rewrite H, Nat.eqb_refl. reflexivity. Qed.

Lemma ewise_diag f (a : vec) : ewise f a a = Ok (map (fun x => f x x) a).
Proof. rewrite ewise_same_length by reflexivity. now rewrite zip_with_diag. Qed.

Lemma long_INR (n : nat) : long (INR n) = Z.of_nat n.
Proof.
  unfold long. destruct (Rlt_dec (INR n) 0) as [H|H].
  - pose proof (pos_INR n). lra.
  - apply Int_part_INR.
Qed.

Lemma long_0 : long 0 = 0%Z.
Proof. exact (long_INR 0). Qed.

Lemma gather_length (input : mat) (index : list Z) (v : vec) :
  gather input index = Ok v -> length v = length index.
Proof.
  revert input v. induction index as [|k index IH]; intros input v H; simpl in H.
  - injection H as <-. reflexivity.
  - destruct input as [|row input]; [discriminate|].
    destruct (index_in row k) as [x|e]; [|discriminate]. simpl in H.
    destruct (gather input index) as [xs|e] eqn:G; [|discriminate].
    simpl in H. injection H as <-. simpl. f_equal. eauto.
Qed.

Lemma clamp_inside (lo hi x : R) : lo <= x <= hi -> clamp lo hi x = x.
Proof.
  intros [H1 H2]. unfold clamp.
  rewrite Rmax_left by lra. now rewrite Rmin_left by lra.
Qed.

Lemma clamp_above (lo hi x : R) : lo <= hi -> hi < x -> clamp lo hi x = hi.
Proof.
  intros H1 H2. unfold clamp.
  rewrite Rmax_left by lra. now rewrite Rmin_right by lra.
Qed.

Lemma clamp_below (lo hi x : R) : lo <= hi -> x < lo -> clamp lo hi x = lo.
Proof.
  intros H1 H2. unfold clamp.
  rewrite Rmax_right by lra. now rewrite Rmin_left by lra.
Qed.

Lemma map_clamp_inside (lo hi : R) (v : vec) :
  Forall (fun x => lo <= x <= hi) v -> map (clamp lo hi) v = v.
Proof.
  induction 1 as [|x v Hx _ IH]; simpl; [reflexivity|].
  now rewrite clamp_inside, IH.
Qed.

(** Unfolding of the monad, for goals that run a method on a given agent. *)
Ltac run := unfold bind, ret, get, gets, modify, lift, print in *.

(* ================================================================== *)
(** * The probability ratio and the three objectives *)

Section Objectives.
Context {Env : Environment} {Est : Estimators}.
Implicit Types self : PPOAgent.

Lemma old_policy_single {A} (p : A) : old_policy [p] = Ok p.
Proof. reflexivity. Qed.

Lemma old_policy_second_to_last {A} (h : list A) :
  (2 <= length h)%nat ->
  exists p, nth_error h (length h - 2) = Some p /\ old_policy h = Ok p.
Proof.
  intros H. unfold old_policy, getitem.
  destruct (Nat.eqb_spec (length h) 1) as [E|_]; [lia|].
  destruct (Z.ltb_spec (Z.of_nat (length h) - 2) 0) as [E|_]; [lia|].
  destruct (Z.ltb_spec (Z.of_nat (length h) - 2) 0) as [E|_]; [lia|].
  replace (Z.to_nat (Z.of_nat (length h) - 2)) with (length h - 2)%nat by lia.
  destruct (nth_error h (length h - 2)) as [p|] eqn:N.
  - now exists p.
  - apply nth_error_None in N. lia.
Qed.

(** The discrete branch, step by step. *)
Lemma compute_proba_ratio_discrete self prob actions :
  discrete_action_bool self = true ->
  compute_proba_ratio prob actions self =
  match old_policy (probs_list self) with
  | Raise e => Raise e
  | Ok old_prob =>
      match gather prob (map long actions) with
      | Raise e => Raise e
      | Ok num =>
          match gather old_prob (map long actions) with
          | Raise e => Raise e
          | Ok denom =>
              match ewise Rdiv num denom with
              | Raise e => Raise e
              | Ok ratio_vect => Ok ((ratio_vect, old_prob), self)
              end
          end
      end
  end.
Proof.
  intros D. unfold compute_proba_ratio, discrete_ratio_num, discrete_ratio_denom.
  run. rewrite D.
  destruct (old_policy (probs_list self)) as [old|e]; [|reflexivity].
  destruct (gather prob (map long actions)) as [num|e]; [|reflexivity].
  destruct (gather old (map long actions)) as [denom|e]; [|reflexivity].
  destruct (ewise Rdiv num denom); reflexivity.
Qed.

(** The continuous branch stops at the name [normal]. *)
Lemma compute_proba_ratio_continuous self prob actions :
  discrete_action_bool self = false ->
  compute_proba_ratio prob actions self =
  match old_policy (mean_list self) with
  | Raise e => Raise e
  | Ok _ => Raise (NameError "normal")
  end.
Proof.
  intros D. unfold compute_proba_ratio. run. rewrite D.
  destruct (old_policy (mean_list self)); reflexivity.
Qed.

(** The method reads the agent and leaves it as it was. *)
Lemma compute_proba_ratio_pure self prob actions r self' :
  compute_proba_ratio prob actions self = Ok (r, self') -> self' = self.
Proof.
  destruct (discrete_action_bool self) eqn:D.
  - rewrite compute_proba_ratio_discrete by assumption.
    destruct (old_policy (probs_list self)); [|discriminate].
    destruct (gather prob (map long actions)); [|discriminate].
    destruct (gather a (map long actions)); [|discriminate].
    destruct (ewise Rdiv a0 a1); [|discriminate].
    now intros [= _ <-].
  - rewrite compute_proba_ratio_continuous by assumption.
    destruct (old_policy (mean_list self)); discriminate.
Qed.

Lemma zip_with_div_self (v : vec) :
  Forall (fun m => m <> 0) v -> zip_with Rdiv v v = repeat 1 (length v).
Proof.
  induction 1 as [|x v Hx _ IH]; simpl; [reflexivity|].
  rewrite IH. f_equal. now field.
Qed.

Lemma clipped_loss_of_ratio self prob actions advantages ratio_vect old_prob :
  compute_proba_ratio prob actions self = Ok ((ratio_vect, old_prob), self) ->
  clipped_loss prob actions advantages self =
  match clipped_surrogate (Config.eps_clipping (config self)) ratio_vect advantages with
  | Ok loss => Ok (loss, self)
  | Raise e => Raise e
  end.
Proof. intros H. unfold clipped_loss. run. now rewrite H. Qed.

Lemma clipped_surrogate_same_length eps (ratio_vect advantages : vec) :
  length ratio_vect = length advantages ->
  clipped_surrogate eps ratio_vect advantages =
  Ok (- tsum (zip_with
                (fun r a => Rmin (r * a) (clamp (1 - eps) (1 + eps) r * a))
                ratio_vect advantages)).
Proof.
  intros L. unfold clipped_surrogate.
  rewrite ewise_same_length by assumption. simpl.
  rewrite ewise_same_length by (now rewrite length_map). simpl.
  rewrite ewise_same_length.
  2:{ rewrite !zip_with_length; rewrite ?length_map; auto. }
  simpl. rewrite zip_with_map_l.
  now rewrite (zip_with_zip_with Rmult (fun x y => clamp (1 - eps) (1 + eps) x * y) Rmin).
Qed.

Lemma clipped_surrogate_inside eps (ratio_vect advantages : vec) :
  Forall (fun r => 1 - eps <= r <= 1 + eps) ratio_vect ->
  clipped_surrogate eps ratio_vect advantages =
  match ewise Rmult ratio_vect advantages with
  | Ok t => Ok (- tsum t)
  | Raise e => Raise e
  end.
Proof.
  intros B. unfold clipped_surrogate. rewrite map_clamp_inside by assumption.
  destruct (ewise Rmult ratio_vect advantages) as [t|e]; simpl; [|reflexivity].
  rewrite ewise_diag. simpl. do 3 f_equal.
  erewrite map_ext; [apply map_id|]. intros x. simpl. apply Rmin_left. lra.
Qed.

(** C9.  Clipped loss: when every entry of the ratio vector lies in
    [[1 - eps_clipping, 1 + eps_clipping]], the loss is the unclipped
    surrogate [- sum (ratio * advantage)]; in general every entry contributes
    the smaller of its unclipped term and its clipped term, the clipped
    ratio of an entry outside the band being the nearer bound. *)
Theorem clipped_loss_band_and_min_rule self prob actions advantages ratio_vect old_prob :
  compute_proba_ratio prob actions self = Ok ((ratio_vect, old_prob), self) ->
  let eps := Config.eps_clipping (config self) in
  (Forall (fun r => 1 - eps <= r <= 1 + eps) ratio_vect ->
   clipped_loss prob actions advantages self =
   match ewise Rmult ratio_vect advantages with
   | Ok t => Ok (- tsum t, self)
   | Raise e => Raise e
   end) /\
  (length ratio_vect = length advantages ->
   clipped_loss prob actions advantages self =
   Ok (- tsum (zip_with
                 (fun r a => Rmin (r * a) (clamp (1 - eps) (1 + eps) r * a))
                 ratio_vect advantages), self)) /\
  (forall r, 0 <= eps -> 1 + eps < r -> clamp (1 - eps) (1 + eps) r = 1 + eps) /\
  (forall r, 0 <= eps -> r < 1 - eps -> clamp (1 - eps) (1 + eps) r = 1 - eps).
Proof.
  intros H eps. repeat split.
  - intros B. rewrite (clipped_loss_of_ratio _ _ _ _ _ _ H).
    fold eps. rewrite clipped_surrogate_inside by assumption.
    now destruct (ewise Rmult ratio_vect advantages).
  - intros L. rewrite (clipped_loss_of_ratio _ _ _ _ _ _ H).
    fold eps. now rewrite clipped_surrogate_same_length.
  - intros r E R1. apply clamp_above; lra.
  - intros r E R1. apply clamp_below; lra.
Qed.

(** C6.  Old-policy selection: the second-to-last entry of a snapshot
    history with at least two entries, the sole entry of a history with
    one; the discrete ratio is computed against that entry; and in the
    bootstrap case, where the history holds just the current output, the
    ratio is 1 at every action whose probability is not zero. *)
Theorem old_policy_reference :
  (forall h : list mat, (2 <= length h)%nat ->
     exists p, nth_error h (length h - 2) = Some p /\ old_policy h = Ok p) /\
  (forall p : mat, old_policy [p] = Ok p) /\
  (forall self prob actions ratio_vect old_prob self',
     discrete_action_bool self = true ->
     compute_proba_ratio prob actions self = Ok ((ratio_vect, old_prob), self') ->
     old_policy (probs_list self) = Ok old_prob) /\
  (forall self prob actions masses,
     discrete_action_bool self = true ->
     probs_list self = [prob] ->
     gather prob (map long actions) = Ok masses ->
     Forall (fun m => m <> 0) masses ->
     compute_proba_ratio prob actions self =
     Ok ((repeat 1 (length actions), prob), self)).
Proof.
  split; [|split; [|split]].
  - intros h. apply old_policy_second_to_last.
  - intros p. apply old_policy_single.
  - intros self prob actions ratio_vect old_prob self' D H.
    rewrite compute_proba_ratio_discrete in H by assumption.
    destruct (old_policy (probs_list self)) as [old|]; [|discriminate].
    destruct (gather prob (map long actions)); [|discriminate].
    destruct (gather old (map long actions)); [|discriminate].
    destruct (ewise Rdiv a a0); [|discriminate].
    now injection H as _ <- _.
  - intros self prob actions masses D P G NZ.
    rewrite compute_proba_ratio_discrete by assumption.
    rewrite P, old_policy_single, G, ewise_diag.
    rewrite <- zip_with_diag, zip_with_div_self by assumption.
    apply gather_length in G. rewrite length_map in G. now rewrite G.
Qed.

Lemma update_beta_halves d kl beta : kl < d / 1.5 -> update_beta d kl beta = beta / 2.
Proof. intros H. unfold update_beta. now destruct (Rlt_dec kl (d / 1.5)). Qed.

Lemma update_beta_doubles d kl beta :
  ~ kl < d / 1.5 -> kl > d * 1.5 -> update_beta d kl beta = beta * 2.
Proof.
  intros N H. unfold update_beta.
  destruct (Rlt_dec kl (d / 1.5)); [contradiction|].
  now destruct (Rgt_dec kl (d * 1.5)).
Qed.

Lemma update_beta_keeps d kl beta :
  d / 1.5 <= kl <= d * 1.5 -> update_beta d kl beta = beta.
Proof.
  intros [H1 H2]. unfold update_beta.
  destruct (Rlt_dec kl (d / 1.5)); [lra|].
  destruct (Rgt_dec kl (d * 1.5)); [lra|reflexivity].
Qed.

(** The branch order of lines 281-283 only matters for a negative target:
    there both tests can hold, and the first one wins. *)
Lemma update_beta_negative_target :
  update_beta (-3) (-3) 1 = 1 / 2 /\ -3 < -3 / 1.5 /\ -3 > -3 * 1.5.
Proof. split; [apply update_beta_halves|]; lra. Qed.

Lemma kl_penalised_run self ratio_vect advantages kl t :
  ewise Rmult ratio_vect advantages = Ok t ->
  let beta := update_beta (Config.d_targ (config self)) kl (beta_kl self) in
  kl_penalised ratio_vect advantages kl self =
  Ok (- tsum t + beta_kl self * kl,
      set_stdout (stdout self ++ [Number beta]) (set_beta_kl beta self)).
Proof. intros H beta. unfold kl_penalised. run. now rewrite H. Qed.

(** C7.  Adaptive-KL loss: a call whose ratio and divergence are computed
    returns [- sum (ratio * advantage) + beta * KL] for the coefficient
    [beta] it found, and leaves the coefficient halved when
    [KL < d_targ / 1.5], doubled when [KL > d_targ * 1.5] (for a target that
    is not negative), unchanged in between. *)
Theorem adaptative_KL_loss_updates_beta
    self prob actions advantages observations ratio_vect old_prob kl t :
  discrete_action_bool self = true ->
  compute_proba_ratio prob actions self = Ok ((ratio_vect, old_prob), self) ->
  for_each (kl_body old_prob prob) (seq 0 (length prob)) 0 = Ok kl ->
  ewise Rmult ratio_vect advantages = Ok t ->
  exists self',
    adaptative_KL_loss prob actions advantages observations self =
    Ok (- tsum t + beta_kl self * kl, self') /\
    (kl < Config.d_targ (config self) / 1.5 ->
     beta_kl self' = beta_kl self / 2) /\
    (0 <= Config.d_targ (config self) ->
     kl > Config.d_targ (config self) * 1.5 ->
     beta_kl self' = beta_kl self * 2) /\
    (Config.d_targ (config self) / 1.5 <= kl <= Config.d_targ (config self) * 1.5 ->
     beta_kl self' = beta_kl self).
Proof.
  intros D H K T. eexists. split.
  - unfold adaptative_KL_loss. unfold bind at 1. unfold get at 1. rewrite D.
    unfold bind at 1. rewrite H. unfold bind at 1. unfold lift at 1. rewrite K.
    apply kl_penalised_run. exact T.
  - simpl. repeat split.
    + apply update_beta_halves.
    + intros P G. apply update_beta_doubles; lra.
    + apply update_beta_keeps.
Qed.

Lemma normalization_divisor_pos (rewards : vec) : 0 < normalization_divisor rewards.
Proof.
  unfold normalization_divisor, std.
  pose proof (sqrt_pos (mean (map (fun x => (x - mean rewards) * (x - mean rewards)) rewards))).
  pose proof eps_norm_pos. lra.
Qed.

Lemma continuous_ratio_denom_pos (old_prob : vec) :
  Forall (fun p => 0 <= p) old_prob ->
  Forall (fun d => 0 < d) (continuous_ratio_denom old_prob).
Proof.
  unfold continuous_ratio_denom. intros H. apply Forall_map.
  eapply Forall_impl; [|exact H]. simpl. intros p P. pose proof eps_prob_pos. lra.
Qed.

(** C4, as the code has it.  The reward normalisation divides by
    [std + 1e-5], which is positive for every reward vector; the continuous
    ratio divides by [old_prob + 1e-6], entry by entry, which is positive
    wherever the old value is zero or positive; the discrete ratio divides
    the gathered current probabilities by the gathered old probabilities
    themselves, with nothing added. *)
Theorem ratio_and_normalisation_divisors :
  (forall rewards : vec,
     normalize rewards =
     map (fun r => (r - mean rewards) / (std rewards + eps_norm)) rewards /\
     0 < std rewards + eps_norm) /\
  (forall old_prob : vec,
     continuous_ratio_denom old_prob = map (fun p => p + eps_prob) old_prob /\
     (Forall (fun p => 0 <= p) old_prob ->
      Forall (fun d => 0 < d) (continuous_ratio_denom old_prob))) /\
  (forall self prob actions ratio_vect old_prob self',
     discrete_action_bool self = true ->
     compute_proba_ratio prob actions self = Ok ((ratio_vect, old_prob), self') ->
     exists num denom,
       gather prob (map long actions) = Ok num /\
       gather old_prob (map long actions) = Ok denom /\
       ratio_vect = zip_with Rdiv num denom).
Proof.
  split; [|split].
  - intros rewards. split; [reflexivity|]. apply normalization_divisor_pos.
  - intros old_prob. split; [reflexivity|]. apply continuous_ratio_denom_pos.
  - intros self prob actions ratio_vect old_prob self' D H.
    rewrite compute_proba_ratio_discrete in H by assumption.
    destruct (old_policy (probs_list self)) as [old|]; [|discriminate].
    destruct (gather prob (map long actions)) as [num|] eqn:N; [|discriminate].
    destruct (gather old (map long actions)) as [denom|] eqn:G; [|discriminate].
    destruct (ewise Rdiv num denom) as [r|] eqn:E; [|discriminate].
    injection H as <- <- _. exists num, denom. repeat split; try assumption.
    apply gather_length in N, G.
    rewrite ewise_same_length in E by congruence. congruence.
Qed.

End Objectives.

(* ================================================================== *)
(** * The advantage estimator *)

Section Estimator.
Context {Env : Environment} {Est : Estimators}.
Implicit Types self : PPOAgent.

Lemma getitem_nat {A} (l : list A) (i : nat) (x : A) :
  nth_error l i = Some x -> getitem l (Z.of_nat i) = Ok x.
Proof.
  intros H. unfold getitem.
  destruct (Z.ltb_spec (Z.of_nat i) 0) as [E|_]; [lia|].
  destruct (Z.ltb_spec (Z.of_nat i) 0) as [E|_]; [lia|].
  now rewrite Nat2Z.id, H.
Qed.

Lemma transitions_length rewards dones values :
  length dones = length rewards -> length values = length rewards ->
  length (transitions rewards dones values) = length rewards.
Proof. intros H1 H2. unfold transitions. rewrite !length_combine. lia. Qed.

Lemma transitions_nth rewards dones values i r d v :
  nth_error (transitions rewards dones values) i = Some (r, d, v) ->
  nth_error rewards i = Some r /\ nth_error dones i = Some d /\
  nth_error values i = Some v.
Proof.
  unfold transitions. revert dones values i.
  induction rewards as [|r0 rewards IH]; intros [|d0 dones] [|v0 values] [|i] H;
    simpl in H; try discriminate.
  - injection H as -> -> ->. now repeat split.
  - simpl. now apply IH.
Qed.

Lemma skipn_cons_nth {A} (l : list A) (i : nat) (x : A) :
  nth_error l i = Some x -> skipn i l = x :: skipn (S i) l.
Proof.
  revert i. induction l as [|y l IH]; intros [|i] H; simpl in *; try discriminate.
  - now injection H as ->.
  - now apply IH.
Qed.

(** One iteration of the loop extends the processed suffix by one
    transition. *)
Lemma gae_body_suffix g l b rewards dones values i :
  (i < length (transitions rewards dones values))%nat ->
  gae_body g l b rewards dones values i
    (estimate_code g l (skipn (S i) (transitions rewards dones values)) b) =
  Ok (estimate_code g l (skipn i (transitions rewards dones values)) b).
Proof.
  intros Hi.
  destruct (nth_error (transitions rewards dones values) i) as [[[r d] v]|] eqn:N.
  2:{ apply nth_error_None in N. lia. }
  rewrite (skipn_cons_nth _ _ _ N).
  apply transitions_nth in N. destruct N as (Nr & Nd & Nv).
  unfold gae_body.
  rewrite (getitem_nat _ _ _ Nr), (getitem_nat _ _ _ Nd), (getitem_nat _ _ _ Nv).
  reflexivity.
Qed.

Lemma gae_loop_suffix g l b rewards dones values n :
  (n <= length (transitions rewards dones values))%nat ->
  for_each (gae_body g l b rewards dones values) (reversed_range n)
    (estimate_code g l (skipn n (transitions rewards dones values)) b) =
  Ok (estimate_code g l (transitions rewards dones values) b).
Proof.
  unfold reversed_range. induction n as [|n IH]; intros Hn.
  - reflexivity.
  - rewrite seq_S, rev_app_distr. simpl.
    rewrite gae_body_suffix by lia. simpl. apply IH. lia.
Qed.

Lemma normalize_length (rewards : vec) : length (normalize rewards) = length rewards.
Proof. apply length_map. Qed.

Lemma consumed_rewards_length self :
  length (consumed_rewards self) = length (Memory.rewards (memory self)).
Proof. unfold consumed_rewards. destruct (norm_reward self); [apply normalize_length|reflexivity]. Qed.

(** On a well-formed buffer with one value per transition the method
    returns, leaves the agent as it was, and computes [estimate_code]. *)
Lemma _returns_advantages_run self values bootstrap :
  Memory.well_formed (memory self) ->
  length values = Memory.len (memory self) ->
  let steps := transitions (consumed_rewards self) (Memory.dones (memory self)) values in
  _returns_advantages values bootstrap self =
  Ok ((returns (estimate_code (gamma self) (lambd self) steps bootstrap),
       advantages (estimate_code (gamma self) (lambd self) steps bootstrap)),
      self).
Proof.
  intros (_ & _ & WF) LV steps. unfold Memory.len in LV.
  assert (LS : length steps = Memory.len (memory self)).
  { unfold steps. rewrite transitions_length; rewrite consumed_rewards_length; auto. }
  unfold _returns_advantages. run. fold (consumed_rewards self).
  pose proof (gae_loop_suffix (gamma self) (lambd self) bootstrap
                (consumed_rewards self) (Memory.dones (memory self)) values
                (length steps) (le_n _)) as L.
  fold steps in L. rewrite skipn_all in L. simpl in L.
  rewrite <- LS, L. reflexivity.
Qed.

(** The returns of the code: every one of them uses the bootstrap value. *)
Lemma estimate_code_returns g l steps b :
  returns (estimate_code g l steps b) =
  map (fun '(r, d, _) => r + g * b * (1 - B2R d)) steps.
Proof.
  induction steps as [|[[r d] v] steps IH]; simpl; [reflexivity|]. now rewrite IH.
Qed.

(** The advantages of the code are those of the specification's recursion. *)
Lemma estimate_code_advantages g l steps b :
  advantages (estimate_code g l steps b) = Spec.advantages (Spec.estimate g l steps b) /\
  gae (estimate_code g l steps b) = Spec.gae (Spec.estimate g l steps b) /\
  next_value (estimate_code g l steps b) = Spec.next_value (Spec.estimate g l steps b).
Proof.
  induction steps as [|[[r d] v] steps (IH1 & IH2 & IH3)]; simpl.
  - now repeat split.
  - rewrite IH1, IH2, IH3. now repeat split.
Qed.

Lemma estimate_code_lengths g l steps b :
  length (returns (estimate_code g l steps b)) = length steps /\
  length (advantages (estimate_code g l steps b)) = length steps.
Proof.
  induction steps as [|[[r d] v] steps (IH1 & IH2)]; simpl; [now split|].
  now rewrite IH1, IH2.
Qed.

(** The returns of the specification's recursion: each one uses the value
    of the following transition, the last one the bootstrap value. *)
Lemma spec_returns_cons g l r d v r' d' v' steps b :
  Spec.returns (Spec.estimate g l ((r, d, v) :: (r', d', v') :: steps) b) =
  (r + g * v' * (1 - B2R d)) ::
  Spec.returns (Spec.estimate g l ((r', d', v') :: steps) b).
Proof. reflexivity. Qed.

Lemma rev_seq_S (n : nat) : rev (seq 0 (S n)) = n :: rev (seq 0 n).
Proof. rewrite seq_S, rev_app_distr. reflexivity. Qed.

Lemma estimate_code_cons g l r d v rest b :
  estimate_code g l ((r, d, v) :: rest) b =
  let e := estimate_code g l rest b in
  let a := r + g * next_value e * (1 - B2R d) - v + g * l * (1 - B2R d) * gae e in
  {| returns := (r + g * b * (1 - B2R d)) :: returns e;
     advantages := a :: advantages e;
     gae := a;
     next_value := v |}.
Proof. reflexivity. Qed.

(** Closed forms: no [done], constant reward [r], constant value [v]. *)
Lemma constant_buffer_code g l r v b n :
  let e := estimate_code g l (repeat (r, false, v) (S n)) b in
  returns e = repeat (r + g * b) (S n) /\
  advantages e = map (constant_advantage g l r v b) (rev (seq 0 (S n))) /\
  gae e = constant_advantage g l r v b n /\
  next_value e = v.
Proof.
  cbv zeta. induction n as [|n (IH1 & IH2 & IH3 & IH4)].
  - simpl. unfold constant_advantage. simpl.
    repeat split; first [ring | f_equal; ring].
  - change (repeat (r, false, v) (S (S n)))
      with ((r, false, v) :: repeat (r, false, v) (S n)).
    rewrite estimate_code_cons. cbv zeta. cbn [returns advantages gae next_value].
    rewrite IH1, IH2, IH3, IH4.
    assert (E : r + g * v * (1 - B2R false) - v
                + g * l * (1 - B2R false) * constant_advantage g l r v b n
                = constant_advantage g l r v b (S n)).
    { unfold constant_advantage. simpl. ring. }
    rewrite E. repeat split.
    + change (repeat (r + g * b) (S (S n)))
        with ((r + g * b) :: repeat (r + g * b) (S n)).
      f_equal. simpl. ring.
    + now rewrite (rev_seq_S (S n)).
Qed.

Lemma constant_buffer_spec_returns g l r v b n :
  Spec.returns (Spec.estimate g l (repeat (r, false, v) (S n)) b) =
  repeat (r + g * v) n ++ [r + g * b] /\
  Spec.last (Spec.estimate g l (repeat (r, false, v) (S n)) b) = v.
Proof.
  induction n as [|n (IH1 & IH2)].
  - simpl. split; [|reflexivity]. f_equal. ring.
  - change (repeat (r, false, v) (S (S n)))
      with ((r, false, v) :: repeat (r, false, v) (S n)).
    cbn [Spec.estimate Spec.returns Spec.last]. rewrite IH1, IH2.
    split; [|reflexivity]. simpl. f_equal. ring.
Qed.

(** The buffer of length 3, expanded. *)
Lemma constant_buffer_three g l r v b :
  let e := estimate_code g l (repeat (r, false, v) 3) b in
  returns e = [r + g * b; r + g * b; r + g * b] /\
  advantages e =
    [ (r + g * v - v) + g * l * ((r + g * v - v) + g * l * (r + g * b - v));
      (r + g * v - v) + g * l * (r + g * b - v);
      r + g * b - v ] /\
  Spec.returns (Spec.estimate g l (repeat (r, false, v) 3) b) =
    [r + g * v; r + g * v; r + g * b].
Proof.
  simpl. repeat split; repeat (f_equal; try ring).
Qed.

(** C10, as the code has it.  With reward normalisation enabled the
    estimator consumes the normalised rewards, computed in a local array:
    the call returns the agent it was given, whose buffer still holds the
    rewards as the environment gave them; the returns are computed from the
    normalised rewards, and so are the advantages, which are those of the
    generalised-advantage recursion run over the normalised rewards. *)
Theorem normalisation_is_local self values bootstrap :
  Memory.well_formed (memory self) ->
  length values = Memory.len (memory self) ->
  norm_reward self = true ->
  exists res self',
    _returns_advantages values bootstrap self = Ok (res, self') /\
    self' = self /\
    Memory.rewards (memory self') = Memory.rewards (memory self) /\
    fst res =
      map (fun '(r, d, _) => r + gamma self * bootstrap * (1 - B2R d))
        (transitions (normalize (Memory.rewards (memory self)))
           (Memory.dones (memory self)) values) /\
    snd res =
      Spec.advantages
        (Spec.estimate (gamma self) (lambd self)
           (transitions (normalize (Memory.rewards (memory self)))
              (Memory.dones (memory self)) values)
           bootstrap).
Proof.
  intros WF LV N. eexists. exists self. split.
  - rewrite _returns_advantages_run by assumption. reflexivity.
  - simpl. repeat split.
    + rewrite estimate_code_returns. unfold consumed_rewards. now rewrite N.
    + rewrite (proj1 (estimate_code_advantages _ _ _ _)).
      unfold consumed_rewards. now rewrite N.
Qed.

End Estimator.

(* ================================================================== *)
(** * Construction, and the names the continuous branches use *)

Section Construction.
Context {Env : Environment} {Est : Estimators}.
Implicit Types self : PPOAgent.

Lemma global_ContinuousActorNetwork :
  global "ContinuousActorNetwork" = Raise (NameError "ContinuousActorNetwork").
Proof. reflexivity. Qed.

Lemma global_normal : global "normal" = Raise (NameError "normal").
Proof. reflexivity. Qed.

Lemma global_config : global "config" = Raise (NameError "config").
Proof. reflexivity. Qed.

(** Over a discrete action space the constructor returns an agent with an
    empty buffer and empty snapshot histories. *)
Lemma __init___discrete (cfg : Config.t) :
  is_discrete action_space = true ->
  exists self,
    __init__ cfg = Ok self /\ discrete_action_bool self = true /\
    memory self = Memory.empty /\ probs_list self = [] /\ mean_list self = [] /\
    batch_size self = Config.batch_size cfg /\ loss_name self = Config.loss_name cfg.
Proof.
  intros D. unfold __init__, make_actor. rewrite D. cbn.
  destruct (CustomValueNetwork observation_shape 64 1 (manual_seed (Config.seed cfg))) as [vnet g].
  cbn.
  destruct (CustomDiscreteActorNetwork observation_shape 64 (action_size action_space) g) as [anet g'].
  cbn. eexists. split; [reflexivity|]. cbn. now repeat split.
Qed.

(** Over any other action space the constructor stops at the name of the
    actor class. *)
Lemma __init___continuous (cfg : Config.t) :
  is_discrete action_space = false ->
  __init__ cfg = Raise (NameError "ContinuousActorNetwork").
Proof.
  intros D. unfold __init__, make_actor. rewrite D. cbn.
  destruct (CustomValueNetwork observation_shape 64 1 (manual_seed (Config.seed cfg))) as [vnet g].
  reflexivity.
Qed.

End Construction.

(* ================================================================== *)
(** * The objective named by [loss_name] *)

Section LossName.
Context {Env : Environment} {Est : Estimators}.
Implicit Types self s : PPOAgent.





(** ** Rules for [follows] *)







(** ** Methods that do not read [loss_name] *)





(** ** The minibatch under an unknown name *)





End LossName.

(* ================================================================== *)
(** * One optimisation pass over a discrete buffer *)

Section Pass.
Context {Env : Environment} {Est : Estimators}.
Implicit Types self s : PPOAgent.

Lemma for_each_succeeds {A T} (body : A -> T -> result T) (xs : list A) :
  (forall x acc, In x xs -> exists acc', body x acc = Ok acc') ->
  forall acc, exists acc', for_each body xs acc = Ok acc'.
Proof.
  induction xs as [|x xs IH]; intros H acc; simpl.
  - now exists acc.
  - destruct (H x acc (or_introl eq_refl)) as [acc1 E]. rewrite E. simpl.
    apply IH. intros y acc2 I. apply H. now right.
Qed.

Lemma getitem_succeeds {A} (l : list A) (i : nat) :
  (i < length l)%nat -> exists x, getitem l (Z.of_nat i) = Ok x /\ nth_error l i = Some x.
Proof.
  intros H. destruct (nth_error l i) as [x|] eqn:N.
  - exists x. split; [now apply getitem_nat|reflexivity].
  - apply nth_error_None in N. lia.
Qed.

Lemma slice_length {A} (l : list A) (i b : nat) :
  length (slice l i (i + b)) = Nat.min b (length l - i).
Proof.
  unfold slice. rewrite length_firstn, length_skipn. f_equal. lia.
Qed.

Lemma slice_map {A B} (f : A -> B) (l : list A) (i j : nat) :
  slice (map f l) i j = map f (slice l i j).
Proof. unfold slice. now rewrite skipn_map, firstn_map. Qed.

Lemma Forall_firstn {A} (P : A -> Prop) (n : nat) (l : list A) :
  Forall P l -> Forall P (firstn n l).
Proof.
  intros H. revert n. induction H as [|x l Hx _ IH]; intros [|n]; simpl; auto.
Qed.

Lemma Forall_skipn {A} (P : A -> Prop) (n : nat) (l : list A) :
  Forall P l -> Forall P (skipn n l).
Proof.
  intros H. revert n. induction H as [|x l Hx Hl IH]; intros [|n]; simpl; auto.
Qed.

Lemma Forall_slice {A} (P : A -> Prop) (l : list A) (i j : nat) :
  Forall P l -> Forall P (slice l i j).
Proof. intros H. unfold slice. now apply Forall_firstn, Forall_skipn. Qed.

Lemma softmax_length (x : vec) : length (softmax x) = length x.
Proof. apply length_map. Qed.

(** A gather succeeds when the index has no more rows than the input and
    each index lies within the row. *)
Lemma gather_succeeds (n : nat) (input : mat) (index : list nat) :
  (length index <= length input)%nat ->
  Forall (fun row => length row = n) input ->
  Forall (fun k => (k < n)%nat) index ->
  exists v, gather input (map long (map INR index)) = Ok v.
Proof.
  revert input. induction index as [|k index IH]; intros input L W B.
  - now exists [].
  - destruct input as [|row input]; [simpl in L; lia|].
    inversion W as [|? ? Wr Wi]; subst. inversion B as [|? ? Bk Bi]; subst.
    destruct (IH input) as [v E]; [simpl in L; lia|assumption|assumption|].
    cbn [map gather]. rewrite long_INR. unfold index_in.
    destruct (Z.ltb_spec (Z.of_nat k) 0) as [N|_]; [lia|].
    rewrite Nat2Z.id.
    destruct (nth_error row k) as [x|] eqn:N.
    + cbn [rbind]. rewrite E. cbn [rbind]. now exists (x :: v).
    + apply nth_error_None in N. lia.
Qed.

(** The old policy once a snapshot has been appended to a history that
    fits: a snapshot with enough rows of the right width. *)
Lemma old_policy_after_append (rows cols : nat) (history : list mat) (prob : mat) :
  snapshot_fits rows cols history ->
  (rows <= length prob)%nat -> Forall (fun row => length row = cols) prob ->
  exists old, old_policy (history ++ [prob]) = Ok old /\
              (rows <= length old)%nat /\ Forall (fun row => length row = cols) old.
Proof.
  intros F L W. unfold snapshot_fits in F.
  destruct (rev history) as [|p t] eqn:R.
  - apply (f_equal (@rev mat)) in R. rewrite rev_involutive in R. subst history.
    exists prob. now repeat split.
  - apply (f_equal (@rev mat)) in R. rewrite rev_involutive in R. subst history.
    destruct F as [Lp Wp]. exists p. split; [|now split].
    cbn [rev]. set (h := rev t).
    destruct (old_policy_second_to_last ((h ++ [p]) ++ [prob])) as (q & N & E).
    { rewrite !length_app. simpl. lia. }
    rewrite E. f_equal.
    rewrite !length_app in N. simpl in N.
    replace (length h + 1 + 1 - 2)%nat with (length h) in N by lia.
    rewrite <- app_assoc in N. rewrite nth_error_app2 in N by lia.
    rewrite Nat.sub_diag in N. simpl in N. congruence.
Qed.

Lemma Forall_nth_error {A} (P : A -> Prop) (l : list A) (i : nat) (x : A) :
  Forall P l -> nth_error l i = Some x -> P x.
Proof.
  intros H N. apply nth_error_In in N. revert x N. now apply Forall_forall.
Qed.

Lemma keeps_setup_refl s : keeps_setup s s.
Proof. now repeat split. Qed.

Lemma compute_proba_ratio_succeeds s prob (acts : list nat) (n k : nat) old :
  discrete_action_bool s = true ->
  old_policy (probs_list s) = Ok old ->
  length acts = k -> length prob = k ->
  Forall (fun row => length row = n) prob ->
  (k <= length old)%nat -> Forall (fun row => length row = n) old ->
  Forall (fun j => (j < n)%nat) acts ->
  exists ratio_vect,
    compute_proba_ratio prob (map INR acts) s = Ok ((ratio_vect, old), s) /\
    length ratio_vect = k.
Proof.
  intros D O La Lp Wp Lo Wo B.
  rewrite compute_proba_ratio_discrete by assumption. rewrite O.
  destruct (gather_succeeds n prob acts) as [num N]; [lia|assumption|assumption|].
  destruct (gather_succeeds n old acts) as [denom G]; [lia|assumption|assumption|].
  rewrite N, G. pose proof (gather_length _ _ _ N) as LN.
  pose proof (gather_length _ _ _ G) as LG. rewrite !length_map in LN, LG.
  rewrite ewise_same_length by congruence.
  eexists. split; [reflexivity|]. rewrite zip_with_length; congruence.
Qed.

Lemma clipped_loss_succeeds s prob (acts : list nat) advs (n k : nat) old :
  discrete_action_bool s = true ->
  old_policy (probs_list s) = Ok old ->
  length acts = k -> length prob = k -> length advs = k ->
  Forall (fun row => length row = n) prob ->
  (k <= length old)%nat -> Forall (fun row => length row = n) old ->
  Forall (fun j => (j < n)%nat) acts ->
  exists loss, clipped_loss prob (map INR acts) advs s = Ok (loss, s).
Proof.
  intros D O La Lp Ld Wp Lo Wo B.
  destruct (compute_proba_ratio_succeeds s prob acts n k old) as (r & E & Lr);
    try assumption.
  rewrite (clipped_loss_of_ratio _ _ _ _ _ _ E).
  rewrite clipped_surrogate_same_length by congruence. now eexists.
Qed.

Lemma A2C_loss_succeeds s prob (acts : list nat) advs (n k : nat) :
  discrete_action_bool s = true ->
  length acts = k -> length prob = k -> length advs = k ->
  Forall (fun row => length row = n) prob ->
  Forall (fun j => (j < n)%nat) acts ->
  exists loss, A2C_loss prob (map INR acts) advs s = Ok (loss, s).
Proof.
  intros D La Lp Ld Wp B. unfold A2C_loss. run. rewrite D.
  destruct (for_each_succeeds (A2C_body prob (map INR acts) advs)
              (seq 0 (length (map INR acts)))) with (acc := 0) as [loss E].
  - intros i acc I. apply in_seq in I. rewrite length_map in I.
    unfold A2C_body.
    destruct (nth_error acts i) as [j|] eqn:Nj.
    2:{ apply nth_error_None in Nj. lia. }
    rewrite (getitem_nat (map INR acts) i (INR j)) by (now apply map_nth_error).
    cbn [rbind].
    destruct (getitem_succeeds prob i) as (row & Er & Nr); [lia|].
    rewrite Er. cbn [rbind]. rewrite long_INR.
    assert (Wr : length row = n).
    { exact (Forall_nth_error _ _ _ _ Wp Nr). }
    assert (Bj : (j < n)%nat).
    { exact (Forall_nth_error _ _ _ _ B Nj). }
    destruct (getitem_succeeds row j) as (p & Ep & _); [lia|].
    rewrite Ep. cbn [rbind].
    destruct (getitem_succeeds advs i) as (a & Ea & _); [lia|].
    rewrite Ea. cbn [rbind]. now eexists.
  - rewrite E. now exists loss.
Qed.

Lemma kl_loop_succeeds (old prob : mat) (n : nat) :
  (length prob <= length old)%nat ->
  Forall (fun row => length row = n) prob ->
  Forall (fun row => length row = n) old ->
  exists kl, for_each (kl_body old prob) (seq 0 (length prob)) 0 = Ok kl.
Proof.
  intros L Wp Wo. apply for_each_succeeds. intros i acc I. apply in_seq in I.
  unfold kl_body.
  destruct (getitem_succeeds old i) as (o & Eo & No); [lia|].
  destruct (getitem_succeeds prob i) as (p & Ep & Np); [lia|].
  rewrite Eo, Ep. cbn [rbind].
  assert (Lo : length o = n).
  { exact (Forall_nth_error _ _ _ _ Wo No). }
  assert (Lq : length p = n).
  { exact (Forall_nth_error _ _ _ _ Wp Np). }
  rewrite ewise_same_length by (rewrite !length_map; congruence). cbn [rbind].
  rewrite ewise_same_length.
  2:{ rewrite zip_with_length; rewrite !length_map; congruence. }
  cbn [rbind]. now eexists.
Qed.

Lemma adaptative_KL_loss_succeeds s prob (acts : list nat) advs obs (n k : nat) old :
  discrete_action_bool s = true ->
  old_policy (probs_list s) = Ok old ->
  length acts = k -> length prob = k -> length advs = k ->
  Forall (fun row => length row = n) prob ->
  (k <= length old)%nat -> Forall (fun row => length row = n) old ->
  Forall (fun j => (j < n)%nat) acts ->
  exists loss s',
    adaptative_KL_loss prob (map INR acts) advs obs s = Ok (loss, s') /\
    keeps_setup s s'.
Proof.
  intros D O La Lp Ld Wp Lo Wo B.
  destruct (compute_proba_ratio_succeeds s prob acts n k old) as (r & E & Lr);
    try assumption.
  destruct (kl_loop_succeeds old prob n) as [kl K]; [lia|assumption|assumption|].
  unfold adaptative_KL_loss. unfold bind at 1. unfold get at 1. rewrite D.
  unfold bind at 1. rewrite E. unfold bind at 1. unfold lift at 1. rewrite K.
  rewrite (kl_penalised_run s r advs kl (zip_with Rmult r advs)).
  2:{ apply ewise_same_length. congruence. }
  do 2 eexists. split; [reflexivity|]. now repeat split.
Qed.

(** Whatever the configured name, the selected objective succeeds on a
    minibatch whose old policy has enough rows. *)
Lemma select_loss_succeeds (name : string) s prob (acts : list nat) advs obs
    (n k : nat) old :
  discrete_action_bool s = true ->
  old_policy (probs_list s) = Ok old ->
  length acts = k -> length prob = k -> length advs = k ->
  Forall (fun row => length row = n) prob ->
  (k <= length old)%nat -> Forall (fun row => length row = n) old ->
  Forall (fun j => (j < n)%nat) acts ->
  exists loss s',
    select_loss name prob (map INR acts) advs obs s = Ok (loss, s') /\
    keeps_setup s s'.
Proof.
  intros D O La Lp Ld Wp Lo Wo B. unfold select_loss.
  destruct (clipped_loss_succeeds s prob acts advs n k old) as [lc Ec];
    try assumption.
  destruct (name =? "clipped_loss")%string.
  { exists lc, s. split; [assumption|apply keeps_setup_refl]. }
  destruct (name =? "adaptative_KL_loss")%string.
  { now apply (adaptative_KL_loss_succeeds s prob acts advs obs n k old). }
  destruct (name =? "A2C_loss")%string.
  { destruct (A2C_loss_succeeds s prob acts advs n k) as [la Ea]; try assumption.
    exists la, s. split; [assumption|apply keeps_setup_refl]. }
  exists lc, s. split; [assumption|apply keeps_setup_refl].
Qed.

(** On a non-empty batch the critic returns one value per observation. *)
Lemma critic_call_nonempty (net : VNet) (batch : mat) :
  (0 < length batch)%nat ->
  critic_call net batch = Ok (map (value_forward net) batch).
Proof. destruct batch; [simpl; lia|reflexivity]. Qed.

Lemma record_policy_discrete s prob actions :
  discrete_action_bool s = true ->
  record_policy prob actions s = Ok (tt, set_probs_list (probs_list s ++ [prob]) s).
Proof. intros D. unfold record_policy. run. now rewrite D. Qed.

Lemma critic_loss_succeeds (obs : mat) (rets : vec) (net : VNet) :
  length obs = length rets -> exists l, critic_loss obs rets net = Ok l.
Proof.
  intros L. unfold critic_loss, mse_loss.
  rewrite ewise_same_length by (now rewrite length_map). now eexists.
Qed.

(** One minibatch of [k] rows over [n] actions. *)
Lemma minibatch_succeeds (n k : nat) observations (acts : list nat) rets advs i ls s :
  (forall net x, length (actor_logits net x) = n) ->
  discrete_action_bool s = true ->
  length (slice observations i (i + batch_size s)) = k ->
  length (slice acts i (i + batch_size s)) = k ->
  length (slice rets i (i + batch_size s)) = k ->
  length (slice advs i (i + batch_size s)) = k ->
  Forall (fun j => (j < n)%nat) acts ->
  snapshot_fits k n (probs_list s) ->
  exists ls' s' prob,
    minibatch observations (map INR acts) rets advs i ls s = Ok (ls', s') /\
    discrete_action_bool s' = true /\
    batch_size s' = batch_size s /\
    memory s' = memory s /\
    probs_list s' = probs_list s ++ [prob] /\
    length prob = k /\
    Forall (fun row => length row = n) prob.
Proof.
  intros W D Lo La Lr Ld B F.
  set (stop := (i + batch_size s)%nat) in *.
  destruct (critic_loss_succeeds (slice observations i stop) (slice rets i stop)
              (value_network s)) as [cl Ec]; [congruence|].
  set (s0 := set_value_network
               (value_optimizer_step (value_network s)
                  (critic_loss (slice observations i stop) (slice rets i stop))) s).
  set (prob := map (actor_forward (actor_network s)) (slice observations i stop)).
  assert (Lp : length prob = k) by (unfold prob; now rewrite length_map).
  assert (Wp : Forall (fun row => length row = n) prob).
  { unfold prob. apply Forall_map, Forall_forall. intros x _.
    unfold actor_forward. now rewrite softmax_length. }
  set (s1 := set_probs_list (probs_list s0 ++ [prob]) s0).
  destruct (old_policy_after_append k n (probs_list s) prob F) as (old & O & Lold & Wold);
    [lia|assumption|].
  assert (Erun :
    minibatch observations (map INR acts) rets advs i ls s =
    match select_loss (loss_name s1) prob (map INR (slice acts i stop))
            (slice advs i stop) (slice observations i stop) s1 with
    | Ok (loss, s2) =>
        Ok ({| loss_list := loss_list ls ++ [loss - c2 s1 * entropy prob];
               dry_loss_list := dry_loss_list ls ++ [loss - c2 s1 * entropy prob];
               entropy_list := entropy_list ls ++ [entropy prob] |},
            set_actor_network
              (actor_optimizer_step (actor_network s2)
                 (actor_loss s1 (slice observations i stop)
                    (slice (map INR acts) i stop) (slice advs i stop))) s2)
    | Raise e => Raise e
    end).
  { unfold minibatch. unfold bind at 1. unfold get at 1. fold stop.
    unfold bind at 1. unfold lift at 1. rewrite Ec.
    unfold bind at 1. unfold modify at 1. fold s0.
    unfold bind at 1. unfold lift at 1.
    replace (discrete_action_bool s) with true. cbn [actor_call]. fold prob.
    unfold bind at 1. rewrite record_policy_discrete by assumption.
    unfold bind at 1. unfold get at 1.
    unfold bind at 1. rewrite <- slice_map.
    match goal with
    | |- match ?x with _ => _ end = match ?y with _ => _ end =>
        change x with y; destruct y as [[loss s2]|]; reflexivity
    end. }
  destruct (select_loss_succeeds (loss_name s1) s1 prob (slice acts i stop)
              (slice advs i stop) (slice observations i stop) n k old)
    as (loss & s2 & El & K2 & K3 & K4 & K5); try assumption; try reflexivity.
  { now apply Forall_slice. }
  rewrite Erun, El. do 3 eexists. split; [reflexivity|].
  cbn [discrete_action_bool batch_size memory probs_list set_actor_network].
  rewrite K2, K3, K4, K5. now repeat split.
Qed.

Lemma snapshot_fits_last (rows cols : nat) (h : list mat) (p : mat) :
  (rows <= length p)%nat -> Forall (fun row => length row = cols) p ->
  snapshot_fits rows cols (h ++ [p]).
Proof. intros L W. unfold snapshot_fits. rewrite rev_app_distr. now split. Qed.

(** The minibatches [a, a+1, ..., a+c-1] of one sweep over a buffer of [L]
    transitions; minibatch [j] has [min bs (L - j * bs)] rows. *)
Lemma sweep_succeeds (n bs L : nat) observations (acts : list nat) rets advs :
  (forall net x, length (actor_logits net x) = n) ->
  length observations = L -> length acts = L ->
  length rets = L -> length advs = L ->
  Forall (fun j => (j < n)%nat) acts ->
  forall c a ls s,
    discrete_action_bool s = true ->
    batch_size s = bs ->
    snapshot_fits (Nat.min bs (L - a * bs)) n (probs_list s) ->
    exists ls' s',
      forM (minibatch observations (map INR acts) rets advs)
        (map (fun j => (j * bs)%nat) (seq a c)) ls s = Ok (ls', s') /\
      discrete_action_bool s' = true /\
      batch_size s' = bs /\
      memory s' = memory s /\
      length (probs_list s') = (length (probs_list s) + c)%nat /\
      ((0 < c)%nat ->
       exists h p, probs_list s' = h ++ [p] /\
                   length p = Nat.min bs (L - (a + c - 1) * bs) /\
                   Forall (fun row => length row = n) p).
Proof.
  intros W Lo La Lr Ld B. induction c as [|c IH]; intros a ls s D Bs F.
  - exists ls, s. cbn [seq map forM]. unfold ret. repeat split; try assumption; lia.
  - cbn [seq map forM]. unfold bind.
    destruct (minibatch_succeeds n (Nat.min bs (L - a * bs)) observations acts
                rets advs (a * bs) ls s W D)
      as (ls1 & s1 & prob & E & D1 & B1 & M1 & P1 & Lp & Wp);
      try (rewrite Bs, slice_length; congruence); try assumption.
    rewrite E.
    destruct (IH (S a) ls1 s1 D1) as (ls2 & s2 & E2 & D2 & B2 & M2 & P2 & Last).
    { congruence. }
    { rewrite P1. apply snapshot_fits_last; [|assumption]. rewrite Lp.
      cbn [Nat.mul]. lia. }
    exists ls2, s2. rewrite E2. repeat split; try assumption; try congruence.
    + rewrite P2, P1, length_app. simpl. lia.
    + intros _. destruct c as [|c].
      * exists (probs_list s), prob.
        cbn [seq map forM] in E2. unfold ret in E2. injection E2 as _ <-.
        repeat split; try assumption.
        rewrite Lp. do 3 f_equal. lia.
      * destruct Last as (h & p & Ph & Lh & Wh); [lia|].
        exists h, p. repeat split; try assumption.
        rewrite Lh. do 3 f_equal. lia.
Qed.

Lemma ceil_div_pos (L bs : nat) : (0 < L)%nat -> (0 < bs)%nat -> (0 < ceil_div L bs)%nat.
Proof.
  intros HL Hb. unfold ceil_div. apply Nat.div_str_pos. lia.
Qed.

(** One call of [optimize_model] on a discrete agent whose buffer holds
    [L > 0] transitions. *)
Lemma optimize_model_succeeds (n bs L : nat) next_obs s :
  (forall net x, length (actor_logits net x) = n) ->
  discrete_action_bool s = true ->
  batch_size s = bs -> (0 < bs)%nat ->
  Memory.well_formed (memory s) -> Memory.len (memory s) = L -> (0 < L)%nat ->
  Forall (fun j => (j < n)%nat) (Memory.actions (memory s)) ->
  snapshot_fits (Nat.min bs L) n (probs_list s) ->
  exists m s',
    optimize_model next_obs s = Ok (m, s') /\
    discrete_action_bool s' = true /\
    batch_size s' = bs /\
    memory s' = memory s /\
    length (probs_list s') = (length (probs_list s) + ceil_div L bs)%nat /\
    exists h p, probs_list s' = h ++ [p] /\
                length p = Nat.min bs (L - (ceil_div L bs - 1) * bs) /\
                Forall (fun row => length row = n) p.
Proof.
  intros W D Bs Hb WF HL Lpos B F.
  pose proof WF as (WFo & WFa & WFd). unfold Memory.len in HL.
  unfold optimize_model. unfold bind at 1. unfold get at 1.
  unfold bind at 1. unfold lift at 1.
  rewrite critic_call_nonempty by (rewrite WFo, HL; lia).
  unfold bind at 1.
  rewrite _returns_advantages_run;
    [|assumption|rewrite length_map; unfold Memory.len; congruence].
  cbv zeta.
  set (e := estimate_code _ _ _ _).
  assert (Le : length (returns e) = L /\ length (advantages e) = L).
  { unfold e.
    match goal with
    | |- context [estimate_code ?g ?l ?st ?b] =>
        destruct (estimate_code_lengths g l st b) as [R1 R2]; rewrite R1, R2
    end.
    rewrite transitions_length;
      rewrite ?consumed_rewards_length, ?length_map; auto; congruence. }
  destruct Le as [Lr La].
  unfold bind at 1. unfold get at 1. unfold bind at 1. unfold lift at 1.
  rewrite Bs, Lr. unfold range_step. destruct bs as [|bs']; [lia|].
  fold (ceil_div L (S bs')).
  destruct (sweep_succeeds n (S bs') L (Memory.observations (memory s))
              (Memory.actions (memory s)) (returns e) (advantages e) W)
    with (c := ceil_div L (S bs')) (a := 0%nat)
         (ls := {| loss_list := []; dry_loss_list := []; entropy_list := [] |})
         (s := s)
    as (ls' & s' & E & D' & B' & M' & P' & Last); try congruence; try assumption.
  { now rewrite Nat.mul_0_l, Nat.sub_0_r. }
  unfold bind. rewrite E. do 2 eexists. split; [reflexivity|].
  repeat split; try assumption.
  apply Last. apply ceil_div_pos; lia.
Qed.

(** The epochs of one trigger.  A second sweep starts from the last
    snapshot of the first, so several sweeps need the last minibatch to be
    as large as the first. *)
Lemma epochs_succeed (n bs L last_epoch : nat) next_obs :
  (forall net x, length (actor_logits net x) = n) ->
  (0 < bs)%nat -> (0 < L)%nat ->
  forall es evol s,
    discrete_action_bool s = true ->
    batch_size s = bs ->
    Memory.well_formed (memory s) -> Memory.len (memory s) = L ->
    Forall (fun j => (j < n)%nat) (Memory.actions (memory s)) ->
    (es <> [] -> snapshot_fits (Nat.min bs L) n (probs_list s)) ->
    ((length es <= 1)%nat \/
     (Nat.min bs L <= L - (ceil_div L bs - 1) * bs)%nat) ->
    exists evol' s',
      forM (fun epoch evol =>
              m <- optimize_model next_obs ;;
              ret (if (epoch =? last_epoch)%nat then evol ++ [m] else evol))
        es evol s = Ok (evol', s') /\
      discrete_action_bool s' = true /\
      batch_size s' = bs /\
      memory s' = memory s /\
      length (probs_list s') = (length (probs_list s) + length es * ceil_div L bs)%nat.
Proof.
  intros W Hb Lpos. induction es as [|epoch es IH]; intros evol s D Bs WF HL B F U.
  - exists evol, s. cbn [forM]. unfold ret. repeat split; try assumption.
    simpl. lia.
  - cbn [forM]. unfold bind at 1. unfold bind at 1.
    destruct (optimize_model_succeeds n bs L next_obs s W D Bs Hb WF HL Lpos B)
      as (m & s1 & E & D1 & B1 & M1 & P1 & h & p & Ph & Lp & Wp).
    { apply F. discriminate. }
    rewrite E. unfold ret at 1.
    destruct (IH (if (epoch =? last_epoch)%nat then evol ++ [m] else evol) s1)
      as (evol' & s2 & E2 & D2 & B2 & M2 & P2); try assumption; try congruence.
    + intros NE. rewrite Ph. apply snapshot_fits_last; [|assumption].
      rewrite Lp. destruct U as [U|U]; [|lia].
      destruct es; [congruence|simpl in U; lia].
    + destruct U as [U|U]; [left; simpl in U; lia|now right].
    + exists evol', s2. rewrite E2. repeat split; try assumption; try congruence.
      rewrite P2, P1. simpl. lia.
Qed.

Lemma optimize_trigger_succeeds (n bs L epochs : nat) next_obs evol s :
  (forall net x, length (actor_logits net x) = n) ->
  (0 < bs)%nat -> (0 < L)%nat ->
  discrete_action_bool s = true ->
  batch_size s = bs ->
  Memory.well_formed (memory s) -> Memory.len (memory s) = L ->
  Forall (fun j => (j < n)%nat) (Memory.actions (memory s)) ->
  snapshot_fits (Nat.min bs L) n (probs_list s) ->
  ((epochs <= 1)%nat \/ (Nat.min bs L <= L - (ceil_div L bs - 1) * bs)%nat) ->
  exists evol' s',
    optimize_trigger epochs next_obs evol s = Ok (evol', s') /\
    discrete_action_bool s' = true /\
    batch_size s' = bs /\
    memory s' = Memory.empty /\
    length (probs_list s') = (length (probs_list s) + epochs * ceil_div L bs)%nat.
Proof.
  intros W Hb Lpos D Bs WF HL B F U.
  destruct (epochs_succeed n bs L (epochs - 1) next_obs W Hb Lpos
              (seq 0 epochs) evol s D Bs WF HL B (fun _ => F))
    as (evol' & s1 & E & D1 & B1 & M1 & P1).
  { now rewrite length_seq. }
  unfold optimize_trigger. unfold bind at 1. rewrite E.
  run. do 2 eexists. split; [reflexivity|].
  cbn [discrete_action_bool batch_size memory probs_list set_memory].
  rewrite length_seq in P1. now repeat split.
Qed.

End Pass.

(* ================================================================== *)
(** * The fallback of an unknown objective name *)

Section Fallback.
Context {Env : Environment} {Est : Estimators}.
Implicit Types self : PPOAgent.


End Fallback.

(* ================================================================== *)
(** * The driver: steps and the optimize trigger *)

Section Driver.
Context {Env : Environment} {Est : Estimators}.
Implicit Types s : PPOAgent.

(** One step of the driver, in terms of what the actor samples and what
    the environment answers. *)
Lemma training_step_run (epochs optimize_every : nat) (l : locals) s k g o r d e :
  multinomial (actor_forward (actor_network s) (obs l)) (rng s) = (k, g) ->
  env_step k (env s) = (o, r, d, e) ->
  (0 < optimize_every)%nat ->
  training_step epochs optimize_every l s =
  if (S (timestep_count l) mod optimize_every =? 0)%nat then
    match optimize_trigger epochs o (loss_evol l) (stored (obs l) k g r d e s) with
    | Ok (evol, s') =>
        Ok ({| timestep_count := S (timestep_count l); obs := o;
               loss_evol := evol |}, d, s')
    | Raise x => Raise x
    end
  else
    Ok ({| timestep_count := S (timestep_count l); obs := o;
           loss_evol := loss_evol l |}, d, stored (obs l) k g r d e s).
Proof.
  intros Hm He Ho. unfold training_step, select_action. run.
  cbn [actor_network rng set_memory]. rewrite Hm.
  cbn [env set_memory set_rng]. rewrite He.
  destruct optimize_every as [|oe]; [lia|].
  fold (stored (obs l) k g r d e s).
  destruct (S (timestep_count l) mod S oe =? 0)%nat; [|reflexivity].
  destruct (optimize_trigger epochs o (loss_evol l) (stored (obs l) k g r d e s))
    as [[evol s']|]; reflexivity.
Qed.

Lemma stored_fields o k g r d e s :
  memory (stored o k g r d e s) =
    Memory.append_reward r
      (Memory.append_done d
         (Memory.append_action k (Memory.append_observation o (memory s)))) /\
  env (stored o k g r d e s) = e /\
  rng (stored o k g r d e s) = g /\
  actor_network (stored o k g r d e s) = actor_network s /\
  discrete_action_bool (stored o k g r d e s) = discrete_action_bool s /\
  batch_size (stored o k g r d e s) = batch_size s /\
  probs_list (stored o k g r d e s) = probs_list s.
Proof. now repeat split. Qed.

End Driver.

(* ================================================================== *)
(** * The three-step scenario *)

Section ThreeSteps.
Context {Est : Estimators}.
#[local] Existing Instance Scenario.three_step_env.
Implicit Types s a : PPOAgent.

Hypothesis two_logits : forall net x, length (actor_logits net x) = 2%nat.
Hypothesis multinomial_in_range :
  forall p g, p <> [] -> (fst (multinomial p g) < length p)%nat.

Lemma sampled_action_in_range s (o : list R) k g :
  multinomial (actor_forward (actor_network s) o) (rng s) = (k, g) -> (k < 2)%nat.
Proof.
  intros H.
  pose proof (multinomial_in_range (actor_forward (actor_network s) o) (rng s)) as P.
  rewrite H in P. unfold actor_forward in P. rewrite softmax_length, two_logits in P.
  apply P. intros E. apply (f_equal (@length R)) in E.
  rewrite softmax_length, two_logits in E. discriminate.
Qed.

Lemma ceil_div_3 (bs : nat) :
  bs = 1%nat \/ (3 <= bs)%nat ->
  (Nat.min bs 3 <= 3 - (ceil_div 3 bs - 1) * bs)%nat.
Proof.
  intros [->|H].
  - reflexivity.
  - assert (E : ceil_div 3 bs = 1%nat).
    { unfold ceil_div. symmetry. apply (Nat.div_unique _ _ 1 2); lia. }
    rewrite E. lia.
Qed.

(** The first episode up to and including its optimize trigger. *)
Lemma first_trigger_run (epochs bs m : nat) (l : locals) a :
  discrete_action_bool a = true ->
  batch_size a = bs -> (0 < bs)%nat ->
  memory a = Memory.empty ->
  timestep_count l = 0%nat ->
  snapshot_fits (Nat.min bs 3) 2 (probs_list a) ->
  (epochs <= 1)%nat \/ bs = 1%nat \/ (3 <= bs)%nat ->
  exists l' a',
    training_episode epochs 3 (3 + m) l a = Ok (l', a') /\
    timestep_count l' = 3%nat /\
    memory a' = Memory.empty /\
    length (probs_list a') = (length (probs_list a) + epochs * ceil_div 3 bs)%nat.
Proof.
  intros D Bs Hb M T F U.
  unfold training_episode. run. cbn [env_reset Scenario.three_step_env].
  rewrite T. set (s0 := set_env (0%nat : @EnvState Scenario.three_step_env) a).
  cbn [Nat.add training_steps]. unfold bind at 1.
  (* step 1 *)
  destruct (multinomial (actor_forward (actor_network s0) [0]) (rng s0))
    as [k1 g1] eqn:M1.
  rewrite (training_step_run epochs 3
             {| timestep_count := 0; obs := [0]; loss_evol := loss_evol l |} s0 k1 g1 [INR 1] 1 false
             (1%nat : @EnvState Scenario.three_step_env) M1 eq_refl)
    by lia.
  cbn [timestep_count obs loss_evol Nat.modulo Nat.divmod Nat.eqb fst snd Nat.sub].
  set (s1 := stored [0] k1 g1 1 false (1%nat : @EnvState Scenario.three_step_env) s0).
  unfold bind at 1.
  (* step 2 *)
  destruct (multinomial (actor_forward (actor_network s1) [INR 1]) (rng s1))
    as [k2 g2] eqn:M2.
  rewrite (training_step_run epochs 3
             {| timestep_count := 1; obs := [INR 1]; loss_evol := loss_evol l |} s1 k2 g2 [INR 2] 1 false
             (2%nat : @EnvState Scenario.three_step_env) M2 eq_refl)
    by lia.
  cbn [timestep_count obs loss_evol Nat.modulo Nat.divmod Nat.eqb fst snd Nat.sub].
  set (s2 := stored [INR 1] k2 g2 1 false (2%nat : @EnvState Scenario.three_step_env) s1).
  unfold bind at 1.
  (* step 3: the trigger *)
  destruct (multinomial (actor_forward (actor_network s2) [INR 2]) (rng s2))
    as [k3 g3] eqn:M3.
  rewrite (training_step_run epochs 3
             {| timestep_count := 2; obs := [INR 2]; loss_evol := loss_evol l |} s2 k3 g3 [INR 3] 1 true
             (3%nat : @EnvState Scenario.three_step_env) M3 eq_refl)
    by lia.
  cbn [timestep_count obs loss_evol Nat.modulo Nat.divmod Nat.eqb fst snd Nat.sub].
  set (s3 := stored [INR 2] k3 g3 1 true (3%nat : @EnvState Scenario.three_step_env) s2).
  assert (Mem : memory s3 =
                {| Memory.observations := [[0]; [INR 1]; [INR 2]];
                   Memory.actions := [k1; k2; k3];
                   Memory.rewards := [1; 1; 1];
                   Memory.dones := [false; false; true] |}).
  { unfold s3. rewrite (proj1 (stored_fields _ _ _ _ _ _ _)).
    unfold s2. rewrite (proj1 (stored_fields _ _ _ _ _ _ _)).
    unfold s1. rewrite (proj1 (stored_fields _ _ _ _ _ _ _)).
    unfold s0. cbn [memory set_env]. rewrite M. reflexivity. }
  assert (D3 : discrete_action_bool s3 = true) by exact D.
  assert (B3 : batch_size s3 = bs) by exact Bs.
  assert (F3 : snapshot_fits (Nat.min bs 3) 2 (probs_list s3)) by exact F.
  assert (WF3 : Memory.well_formed (memory s3)) by (rewrite Mem; now repeat split).
  assert (L3 : Memory.len (memory s3) = 3%nat) by (now rewrite Mem).
  assert (A3 : Forall (fun j => (j < 2)%nat) (Memory.actions (memory s3))).
  { rewrite Mem. cbn [Memory.actions].
    repeat apply Forall_cons; [| | |apply Forall_nil].
    - exact (sampled_action_in_range _ _ _ _ M1).
    - exact (sampled_action_in_range _ _ _ _ M2).
    - exact (sampled_action_in_range _ _ _ _ M3). }
  assert (U3 : (epochs <= 1)%nat \/
               (Nat.min bs 3 <= 3 - (ceil_div 3 bs - 1) * bs)%nat).
  { destruct U as [U|U]; [now left|right]. now apply ceil_div_3. }
  destruct (optimize_trigger_succeeds 2 bs 3 epochs [INR 3] (loss_evol l) s3
              two_logits Hb (Nat.lt_0_succ 2) D3 B3 WF3 L3 A3 F3 U3)
    as (evol & s4 & E & D4 & B4 & M4 & P4).
  rewrite E. exists {| timestep_count := 3; obs := [INR 3]; loss_evol := evol |}, s4.
  split; [reflexivity|]. repeat split; assumption.
Qed.

(** C5, as the code has it.  In the two-action environment with reward
    [+1] per step and [done] at the third step, with [optimize_every = 3],
    the first episode reaches its optimize trigger at the third step: the
    trigger runs [epochs] sweeps, each recording one snapshot per minibatch,
    and clears the buffer.  So the buffer length is back to 0 and the
    snapshot history has grown by [epochs * ceil(3 / batch_size)], for one
    epoch or for a batch size (1, or 3 and more) that cuts the buffer into
    minibatches of equal size. *)
Theorem first_trigger_clears_buffer_and_records_snapshots
    (epochs bs max_steps : nat) (l : locals) a :
  discrete_action_bool a = true ->
  batch_size a = bs -> (0 < bs)%nat ->
  memory a = Memory.empty ->
  timestep_count l = 0%nat ->
  (3 <= max_steps)%nat ->
  snapshot_fits (Nat.min bs 3) 2 (probs_list a) ->
  (epochs <= 1)%nat \/ bs = 1%nat \/ (3 <= bs)%nat ->
  exists l' a',
    training_episode epochs 3 max_steps l a = Ok (l', a') /\
    Memory.len (memory a') = 0%nat /\
    length (probs_list a') = (length (probs_list a) + epochs * ceil_div 3 bs)%nat.
Proof.
  intros D Bs Hb M T S3 F U.
  destruct (first_trigger_run epochs bs (max_steps - 3) l a D Bs Hb M T F U)
    as (l' & a' & E & _ & M' & P').
  replace (3 + (max_steps - 3))%nat with max_steps in E by lia.
  exists l', a'. repeat split; try assumption. now rewrite M'.
Qed.

End ThreeSteps.

(* ================================================================== *)
(** * The bootstrap ratio of an actor output *)

Section Bootstrap.
Context {Env : Environment} {Est : Estimators}.
Implicit Types s : PPOAgent.

Lemma tsum_pos (v : vec) :
  v <> [] -> Forall (fun x => 0 < x) v -> 0 < tsum v.
Proof.
  intros NE H. induction H as [|x v Hx Hv IH]; [contradiction|].
  simpl. destruct v as [|y v].
  - simpl. lra.
  - assert (0 < tsum (y :: v)) by (apply IH; discriminate). lra.
Qed.

(** Every entry of a softmax is positive. *)
Lemma softmax_pos (x : vec) : Forall (fun p => 0 < p) (softmax x).
Proof.
  unfold softmax. apply Forall_forall. intros p I.
  apply in_map_iff in I. destruct I as (xi & <- & I).
  apply Rdiv_lt_0_compat; [apply exp_pos|].
  apply tsum_pos.
  - destruct x; [contradiction|discriminate].
  - apply Forall_forall. intros e Ie. apply in_map_iff in Ie.
    destruct Ie as (z & <- & _). apply exp_pos.
Qed.

Lemma index_in_In {A} (l : list A) (k : Z) (x : A) :
  index_in l k = Ok x -> In x l.
Proof.
  unfold index_in. destruct (k <? 0)%Z; [discriminate|].
  destruct (nth_error l (Z.to_nat k)) as [y|] eqn:N; [|discriminate].
  intros [= <-]. now apply nth_error_In in N.
Qed.

(** What a gather returns comes from the rows of its input. *)
Lemma gather_Forall (P : R -> Prop) (input : mat) (index : list Z) (v : vec) :
  Forall (Forall P) input -> gather input index = Ok v -> Forall P v.
Proof.
  revert input v. induction index as [|k index IH]; intros input v H G; simpl in G.
  - injection G as <-. constructor.
  - destruct input as [|row input]; [discriminate|].
    inversion H as [|? ? Hrow Hrest]; subst.
    destruct (index_in row k) as [x|] eqn:X; [|discriminate]. simpl in G.
    destruct (gather input index) as [xs|] eqn:E; [|discriminate]. simpl in G.
    injection G as <-. constructor.
    + apply index_in_In in X. revert x X. now apply Forall_forall.
    + now apply (IH input).
Qed.

(** On the first minibatch the only snapshot is the output of the actor
    itself, whose probabilities are positive: the ratio is 1 everywhere. *)
Lemma bootstrap_ratio_of_actor_output (n : nat) s (batch : mat) (acts : list nat) :
  (forall net x, length (actor_logits net x) = n) ->
  discrete_action_bool s = true ->
  length acts = length batch ->
  Forall (fun j => (j < n)%nat) acts ->
  probs_list s = [map (actor_forward (actor_network s)) batch] ->
  compute_proba_ratio (map (actor_forward (actor_network s)) batch) (map INR acts) s =
  Ok ((repeat 1 (length acts), map (actor_forward (actor_network s)) batch), s).
Proof.
  intros W D L B P. set (prob := map (actor_forward (actor_network s)) batch) in *.
  assert (Wp : Forall (fun row => length row = n) prob).
  { unfold prob. apply Forall_map, Forall_forall. intros x _.
    unfold actor_forward. now rewrite softmax_length. }
  destruct (gather_succeeds n prob acts) as [masses G]; try assumption.
  { unfold prob. rewrite length_map. lia. }
  rewrite compute_proba_ratio_discrete by assumption.
  rewrite P, old_policy_single, G, ewise_diag.
  rewrite <- zip_with_diag, zip_with_div_self.
  - apply gather_length in G. rewrite !length_map in G. now rewrite G.
  - apply (gather_Forall (fun m => m <> 0) prob _ _) in G; [assumption|].
    unfold prob. apply Forall_map, Forall_forall. intros x _.
    eapply Forall_impl; [|apply softmax_pos]. simpl. intros p Hp. lra.
Qed.

End Bootstrap.

(* ================================================================== *)
(** * The code on concrete inputs *)

Lemma frozen_two_logits :
  forall (net : @ANet Scenario.frozen) (x : list R),
    length (@actor_logits Scenario.frozen net x) = 2%nat.
Proof. reflexivity. Qed.

Lemma frozen_multinomial_in_range :
  forall (p : list R) (g : @Rng Scenario.frozen),
    p <> [] -> (fst (@multinomial Scenario.frozen p g) < length p)%nat.
Proof.
  intros p g H. cbn. apply Nat.mod_upper_bound.
  destruct p; [contradiction|discriminate].
Qed.

(** C1.  On two buffered transitions without [done], with rewards 1,
    values 5 and 7, bootstrap value 0 and [gamma = lambda = 1], the method
    returns the returns [[1; 1]]: both use the bootstrap value, because
    [last] is never advanced.  The recursion of the specification, in which
    [last] advances to [value[i]], gives [[8; 1]].  The advantages are those
    of the specification. *)
Theorem returns_never_advance_last :
  exists rets advs,
    _returns_advantages [5; 7] 0 Scenario.two_steps =
      Ok ((rets, advs), Scenario.two_steps) /\
    rets = [1; 1] /\
    Spec.returns (Spec.estimate 1 1 [(1, false, 5); (1, false, 7)] 0) =
      [1 + 1 * 7 * (1 - 0); 1 + 1 * 0 * (1 - 0)] /\
    1 + 1 * 7 * (1 - 0) = 8 /\
    advs = Spec.advantages (Spec.estimate 1 1 [(1, false, 5); (1, false, 7)] 0).
Proof.
  do 2 eexists. split; [|split; [|split; [|split]]].
  - rewrite _returns_advantages_run; [reflexivity|now repeat split|reflexivity].
  - cbn. repeat (apply f_equal2; [lra|]). reflexivity.
  - reflexivity.
  - lra.
  - reflexivity.
Qed.

(** C2.  Over a continuous action space the constructor raises
    [NameError] for [ContinuousActorNetwork]; the continuous branch of
    [compute_proba_ratio] raises [NameError] for [normal]; and the name
    [config] it would evaluate next is not bound either. *)
Theorem continuous_paths_raise_NameError :
  @__init__ Scenario.box_env Scenario.frozen (Scenario.cfg "clipped_loss" false 1) =
    Raise (NameError "ContinuousActorNetwork") /\
  compute_proba_ratio [[0]] [0] Scenario.continuous = Raise (NameError "normal") /\
  global "config" = Raise (NameError "config").
Proof. repeat split; reflexivity. Qed.

(** C3.  On the probability tensor [[[1]]] and the advantage [[1]] the
    continuous branch of [A2C_loss] returns [log(1 + 1e-6)], a positive
    number: the dot product itself, where the specification (and the
    discrete branch) take its negative. *)
Theorem A2C_loss_continuous_is_not_negated :
  A2C_loss [[1]] [0] [1] Scenario.continuous =
    Ok (ln (1 + eps_prob) * 1 + 0, Scenario.continuous) /\
  Spec.A2C_continuous [[1]] [1] = Ok (- (ln (1 + eps_prob) * 1 + 0)) /\
  0 < ln (1 + eps_prob) * 1 + 0.
Proof.
  split; [reflexivity|split; [reflexivity|]].
  assert (0 < ln (1 + eps_prob)).
  { rewrite <- ln_1. apply ln_increasing; [lra|]. pose proof eps_prob_pos. lra. }
  lra.
Qed.

Lemma zero_mass_ratio :
  gather [[0; 1]] (map long [0]) = Ok [0] /\
  compute_proba_ratio [[0; 1]] [0] (Scenario.one_snapshot [[0; 1]]) =
    Ok (([0 / 0], [[0; 1]]), Scenario.one_snapshot [[0; 1]]).
Proof.
  assert (G : gather [[0; 1]] (map long [0]) = Ok [0]).
  { cbn [map]. rewrite long_0. reflexivity. }
  split; [exact G|].
  rewrite compute_proba_ratio_discrete by reflexivity.
  cbn [probs_list Scenario.one_snapshot Scenario.agent].
  rewrite old_policy_single, G. reflexivity.
Qed.

(** C4, refuted as stated: the divisor of the discrete ratio is the old
    probability of the action, with nothing added, and it is zero when
    that probability is. *)
Lemma discrete_ratio_divides_by_zero :
  discrete_ratio_denom [[0; 1]] [0] = Ok [0] /\
  compute_proba_ratio [[0; 1]] [0] (Scenario.one_snapshot [[0; 1]]) =
    Ok (([0 / 0], [[0; 1]]), Scenario.one_snapshot [[0; 1]]).
Proof. exact zero_mass_ratio. Qed.

Lemma ratio_and_normalisation_divisors_witness :
  0 < std [1; 2; 3] + eps_norm /\
  Forall (fun d => 0 < d) (continuous_ratio_denom [0; 1]) /\
  exists num denom,
    gather [[0; 1]] (map long [0]) = Ok num /\
    gather [[0; 1]] (map long [0]) = Ok denom /\
    [0 / 0] = zip_with Rdiv num denom.
Proof.
  pose proof (@ratio_and_normalisation_divisors Scenario.three_step_env Scenario.frozen)
    as (N & C & D).
  split; [apply (N [1; 2; 3])|split].
  - apply (C [0; 1]). repeat constructor; lra.
  - apply (D (Scenario.one_snapshot [[0; 1]]) [[0; 1]] [0] [0 / 0] [[0; 1]]
             (Scenario.one_snapshot [[0; 1]])).
    + reflexivity.
    + apply zero_mass_ratio.
Defined.

(** C5, refuted as stated: with two epochs and batch size 3 the trigger
    records two snapshots, not [ceil(3 / 3) = 1]. *)
Lemma two_epochs_record_two_snapshots :
  exists l' a',
    training_episode 2 3 3 Scenario.start (Scenario.fresh "clipped_loss" 3) =
      Ok (l', a') /\
    Memory.len (memory a') = 0%nat /\
    length (probs_list a') = 2%nat /\
    length (probs_list (Scenario.fresh "clipped_loss" 3)) = 0%nat /\
    ceil_div 3 3 = 1%nat.
Proof.
  destruct (@first_trigger_run Scenario.frozen frozen_two_logits
              frozen_multinomial_in_range 2 3 0 Scenario.start
              (Scenario.fresh "clipped_loss" 3))
    as (l' & a' & E & _ & M & P); try reflexivity; try lia.
  exists l', a'. repeat split; try assumption; try reflexivity.
  now rewrite M.
Qed.

Lemma first_trigger_clears_buffer_and_records_snapshots_witness :
  exists l' a',
    training_episode 1 3 5 Scenario.start (Scenario.fresh "A2C_loss" 2) =
      Ok (l', a') /\
    Memory.len (memory a') = 0%nat /\
    length (probs_list a') = (0 + 1 * ceil_div 3 2)%nat.
Proof.
  apply (@first_trigger_clears_buffer_and_records_snapshots Scenario.frozen
           frozen_two_logits frozen_multinomial_in_range 1 2 5 Scenario.start
           (Scenario.fresh "A2C_loss" 2)).
  - reflexivity.
  - reflexivity.
  - lia.
  - reflexivity.
  - reflexivity.
  - lia.
  - exact I.
  - left. lia.
Defined.

Lemma uniform_ratio :
  gather [[0.5; 0.5]] (map long [0]) = Ok [0.5].
Proof. cbn [map]. rewrite long_0. reflexivity. Qed.

Lemma old_policy_reference_witness :
  (exists p, nth_error [[[0; 1]]; [[0.5; 0.5]]; [[1; 0]]] (3 - 2) = Some p /\
             old_policy [[[0; 1]]; [[0.5; 0.5]]; [[1; 0]]] = Ok p) /\
  old_policy (probs_list (Scenario.one_snapshot [[0.5; 0.5]])) = Ok [[0.5; 0.5]] /\
  compute_proba_ratio [[0.5; 0.5]] [0] (Scenario.one_snapshot [[0.5; 0.5]]) =
    Ok ((repeat 1 1, [[0.5; 0.5]]), Scenario.one_snapshot [[0.5; 0.5]]).
Proof.
  pose proof (@old_policy_reference Scenario.three_step_env Scenario.frozen)
    as (H2 & H1 & Hold & Hratio).
  assert (R1 : compute_proba_ratio [[0.5; 0.5]] [0] (Scenario.one_snapshot [[0.5; 0.5]]) =
               Ok ((repeat 1 1, [[0.5; 0.5]]), Scenario.one_snapshot [[0.5; 0.5]])).
  { apply (Hratio (Scenario.one_snapshot [[0.5; 0.5]]) [[0.5; 0.5]] [0] [0.5]).
    - reflexivity.
    - reflexivity.
    - exact uniform_ratio.
    - repeat constructor. lra. }
  split; [|split].
  - apply (H2 [[[0; 1]]; [[0.5; 0.5]]; [[1; 0]]]). simpl. lia.
  - apply (Hold (Scenario.one_snapshot [[0.5; 0.5]]) [[0.5; 0.5]] [0] (repeat 1 1)
             [[0.5; 0.5]] (Scenario.one_snapshot [[0.5; 0.5]])).
    + reflexivity.
    + exact R1.
  - exact R1.
Defined.

Lemma adaptative_KL_loss_updates_beta_witness :
  exists kl t self',
    for_each (kl_body [[0.5; 0.5]] [[0.5; 0.5]]) (seq 0 1) 0 = Ok kl /\
    adaptative_KL_loss [[0.5; 0.5]] [0] [2] [[0]] (Scenario.one_snapshot [[0.5; 0.5]]) =
      Ok (- tsum t + beta_kl (Scenario.one_snapshot [[0.5; 0.5]]) * kl, self') /\
    beta_kl self' = beta_kl (Scenario.one_snapshot [[0.5; 0.5]]) / 2.
Proof.
  assert (R1 : compute_proba_ratio [[0.5; 0.5]] [0] (Scenario.one_snapshot [[0.5; 0.5]]) =
               Ok (([0.5 / 0.5], [[0.5; 0.5]]), Scenario.one_snapshot [[0.5; 0.5]])).
  { rewrite compute_proba_ratio_discrete by reflexivity.
    cbn [probs_list Scenario.one_snapshot Scenario.agent].
    rewrite old_policy_single, uniform_ratio. reflexivity. }
  destruct (@adaptative_KL_loss_updates_beta Scenario.three_step_env Scenario.frozen
              (Scenario.one_snapshot [[0.5; 0.5]]) [[0.5; 0.5]] [0] [2] [[0]]
              [0.5 / 0.5] [[0.5; 0.5]]
              (0 + tsum (zip_with Rmult [0.5; 0.5]
                           (zip_with Rminus (map ln [0.5; 0.5]) (map ln [0.5; 0.5]))))
              (zip_with Rmult [0.5 / 0.5] [2])
              eq_refl R1 eq_refl eq_refl)
    as (self' & E & Half & _ & _).
  eexists. exists (zip_with Rmult [0.5 / 0.5] [2]), self'.
  split; [reflexivity|split; [exact E|]].
  apply Half. cbn. lra.
Defined.

Lemma buffer_well_formed : Memory.well_formed Examples.buffer.
Proof. now repeat split. Qed.


Lemma clipped_loss_band_and_min_rule_witness :
  clipped_loss [[0.5; 0.5]] [0] [2] (Scenario.one_snapshot [[0.5; 0.5]]) =
    Ok (- tsum (zip_with Rmult [0.5 / 0.5] [2]), Scenario.one_snapshot [[0.5; 0.5]]) /\
  clamp (1 - 0.2) (1 + 0.2) 2 = 1 + 0.2 /\
  clamp (1 - 0.2) (1 + 0.2) 0 = 1 - 0.2.
Proof.
  assert (R1 : compute_proba_ratio [[0.5; 0.5]] [0] (Scenario.one_snapshot [[0.5; 0.5]]) =
               Ok (([0.5 / 0.5], [[0.5; 0.5]]), Scenario.one_snapshot [[0.5; 0.5]])).
  { rewrite compute_proba_ratio_discrete by reflexivity.
    cbn [probs_list Scenario.one_snapshot Scenario.agent].
    rewrite old_policy_single, uniform_ratio. reflexivity. }
  destruct (@clipped_loss_band_and_min_rule Scenario.three_step_env Scenario.frozen
              (Scenario.one_snapshot [[0.5; 0.5]]) [[0.5; 0.5]] [0] [2]
              [0.5 / 0.5] [[0.5; 0.5]] R1) as (Band & _ & Above & Below).
  split; [|split].
  - apply Band. repeat constructor; cbn; lra.
  - apply Above; cbn; lra.
  - apply Below; cbn; lra.
Defined.

(** With minibatches of unequal size a second sweep gathers from a
    snapshot that has fewer rows than the minibatch. *)
Lemma short_old_snapshot_raises :
  compute_proba_ratio [[0.5; 0.5]; [0.5; 0.5]] [0; 0] Scenario.second_sweep =
  Raise RuntimeError.
Proof.
  rewrite compute_proba_ratio_discrete by reflexivity.
  cbn [probs_list Scenario.second_sweep Scenario.agent map].
  rewrite long_0. reflexivity.
Qed.

Lemma mean_1_2_3 : mean [1; 2; 3] = 2.
Proof. unfold mean, tsum. cbn. lra. Qed.

(** C10, refuted as stated: after the call the buffer still holds the
    rewards 1, 2, 3, which are not their normalisation (whose second entry
    is 0). *)
Lemma buffer_rewards_stay_raw :
  exists res a',
    _returns_advantages [0; 0; 0] 0 Scenario.normalising = Ok (res, a') /\
    Memory.rewards (memory a') = [1; 2; 3] /\
    Memory.rewards (memory a') <> normalize [1; 2; 3].
Proof.
  do 2 eexists. split; [|split].
  - rewrite _returns_advantages_run; [reflexivity|now repeat split|reflexivity].
  - reflexivity.
  - cbn [memory Scenario.normalising Scenario.agent Memory.rewards].
    unfold normalize. cbn [map]. rewrite mean_1_2_3. intros H.
    injection H as _ H _. unfold Rdiv in H.
    replace (2 - 2) with 0 in H by lra. rewrite Rmult_0_l in H. lra.
Qed.

Lemma normalisation_is_local_witness :
  exists res self',
    _returns_advantages [0; 0; 0] 0 Scenario.normalising = Ok (res, self') /\
    self' = Scenario.normalising /\
    Memory.rewards (memory self') = Memory.rewards (memory Scenario.normalising) /\
    fst res =
      map (fun '(r, d, _) => r + gamma Scenario.normalising * 0 * (1 - B2R d))
        (transitions (normalize (Memory.rewards (memory Scenario.normalising)))
           (Memory.dones (memory Scenario.normalising)) [0; 0; 0]) /\
    snd res =
      Spec.advantages
        (Spec.estimate (gamma Scenario.normalising) (lambd Scenario.normalising)
           (transitions (normalize (Memory.rewards (memory Scenario.normalising)))
              (Memory.dones (memory Scenario.normalising)) [0; 0; 0])
           0).
Proof.
  apply (@normalisation_is_local Scenario.three_step_env Scenario.frozen
           Scenario.normalising [0; 0; 0] 0).
  - now repeat split.
  - reflexivity.
  - reflexivity.
Defined.

(* ================================================================== *)
(** * Further properties of the advantage estimator *)

Section EstimatorProperties.
Context {Env : Environment} {Est : Estimators}.
Implicit Types self : PPOAgent.

(** X1.  On a well-formed buffer with one value per transition,
    [_returns_advantages] returns one return and one advantage per
    buffered transition and leaves the agent as it was. *)
Theorem returns_advantages_have_buffer_length self values bootstrap :
  Memory.well_formed (memory self) ->
  length values = Memory.len (memory self) ->
  exists rets advs,
    _returns_advantages values bootstrap self = Ok ((rets, advs), self) /\
    length rets = Memory.len (memory self) /\
    length advs = Memory.len (memory self).
Proof.
  intros WF LV. do 2 eexists. split.
  - apply _returns_advantages_run; assumption.
  - destruct WF as (_ & _ & WFd). unfold Memory.len in *.
    match goal with
    | |- context [estimate_code ?g ?l ?st ?b] =>
        destruct (estimate_code_lengths g l st b) as [R1 R2]; rewrite R1, R2
    end.
    rewrite transitions_length; rewrite ?consumed_rewards_length; auto.
Qed.

Lemma getitem_out_of_range {A} (l : list A) (i : nat) :
  (length l <= i)%nat -> getitem l (Z.of_nat i) = Raise IndexError.
Proof.
  intros H. unfold getitem.
  destruct (Z.ltb_spec (Z.of_nat i) 0) as [E|_]; [lia|].
  destruct (Z.ltb_spec (Z.of_nat i) 0) as [E|_]; [lia|].
  rewrite Nat2Z.id.
  destruct (nth_error l i) eqn:N; [|reflexivity].
  assert (nth_error l i <> None) as NN by congruence.
  apply nth_error_Some in NN. lia.
Qed.

(** X2.  With fewer values than buffered transitions the method raises
    [IndexError]: the loop starts at the last transition, whose value is
    missing. *)
Theorem too_few_values_raise_IndexError self values bootstrap :
  Memory.well_formed (memory self) ->
  (length values < Memory.len (memory self))%nat ->
  _returns_advantages values bootstrap self = Raise IndexError.
Proof.
  intros (_ & _ & WFd) LV. unfold Memory.len in *.
  unfold _returns_advantages. run. fold (consumed_rewards self).
  unfold Memory.len, reversed_range.
  destruct (length (Memory.rewards (memory self))) as [|n] eqn:L; [lia|].
  rewrite seq_S, rev_app_distr. cbn [rev app for_each Nat.add].
  unfold gae_body at 1.
  destruct (getitem_succeeds (consumed_rewards self) n) as (r & Er & _).
  { rewrite consumed_rewards_length. lia. }
  destruct (getitem_succeeds (Memory.dones (memory self)) n) as (d & Ed & _); [lia|].
  rewrite Er, Ed. cbn [rbind].
  rewrite getitem_out_of_range by lia. reflexivity.
Qed.

Lemma estimate_code_skipn g l steps b i :
  skipn i (returns (estimate_code g l steps b)) =
    returns (estimate_code g l (skipn i steps) b) /\
  skipn i (advantages (estimate_code g l steps b)) =
    advantages (estimate_code g l (skipn i steps) b).
Proof.
  revert i. induction steps as [|[[r d] v] steps IH]; intros [|i]; try (now split).
  cbn [skipn]. rewrite estimate_code_cons. cbn [returns advantages]. apply IH.
Qed.

Lemma nth_error_skipn_hd {A} (l : list A) (i : nat) :
  nth_error l i = hd_error (skipn i l).
Proof.
  revert i. induction l as [|x l IH]; intros [|i]; simpl; auto.
Qed.

(** The transition [i] and what the code computes for it. *)
Lemma estimate_code_nth g l steps b i r d v :
  nth_error steps i = Some (r, d, v) ->
  let rest := estimate_code g l (skipn (S i) steps) b in
  nth_error (returns (estimate_code g l steps b)) i =
    Some (r + g * b * (1 - B2R d)) /\
  nth_error (advantages (estimate_code g l steps b)) i =
    Some (r + g * next_value rest * (1 - B2R d) - v
          + g * l * (1 - B2R d) * gae rest).
Proof.
  intros N rest. rewrite !nth_error_skipn_hd.
  destruct (estimate_code_skipn g l steps b i) as [-> ->].
  rewrite (skipn_cons_nth _ _ _ N), estimate_code_cons. now split.
Qed.

Lemma transitions_nth_intro rewards dones values i r d v :
  nth_error rewards i = Some r -> nth_error dones i = Some d ->
  nth_error values i = Some v ->
  nth_error (transitions rewards dones values) i = Some (r, d, v).
Proof.
  unfold transitions. revert dones values i.
  induction rewards as [|r0 rewards IH]; intros [|d0 dones] [|v0 values] [|i];
    simpl; try discriminate.
  - now intros [= ->] [= ->] [= ->].
  - apply IH.
Qed.

(** X3.  A transition flagged [done] cuts both recursions: its return is
    its reward and its advantage is [reward - value], whatever follows it
    in the buffer. *)
Theorem done_cuts_the_recursions self values bootstrap i r v :
  Memory.well_formed (memory self) ->
  length values = Memory.len (memory self) ->
  nth_error (consumed_rewards self) i = Some r ->
  nth_error (Memory.dones (memory self)) i = Some true ->
  nth_error values i = Some v ->
  exists rets advs ret adv,
    _returns_advantages values bootstrap self = Ok ((rets, advs), self) /\
    nth_error rets i = Some ret /\ ret = r /\
    nth_error advs i = Some adv /\ adv = r - v.
Proof.
  intros WF LV Nr Nd Nv.
  pose proof (transitions_nth_intro _ _ _ _ _ _ _ Nr Nd Nv) as N.
  destruct (estimate_code_nth (gamma self) (lambd self) _ bootstrap _ _ _ _ N)
    as [R A].
  do 4 eexists. split; [apply _returns_advantages_run; assumption|].
  split; [exact R|]. split; [cbn [B2R]; ring|]. split; [exact A|].
  cbn [B2R]. ring.
Qed.

Lemma next_value_of_rest g l values rewards dones b i :
  length dones = length rewards -> length values = length rewards ->
  next_value (estimate_code g l (skipn (S i) (transitions rewards dones values)) b) =
  nth (S i) values b.
Proof.
  intros Ld Lv.
  destruct (nth_error (transitions rewards dones values) (S i)) as [[[r d] v]|] eqn:N.
  - rewrite (skipn_cons_nth _ _ _ N), estimate_code_cons. cbn [next_value].
    apply transitions_nth in N. destruct N as (_ & _ & Nv).
    symmetry. now apply nth_error_nth.
  - apply nth_error_None in N. rewrite skipn_all2 by assumption.
    cbn [estimate_code next_value]. rewrite transitions_length in N by assumption.
    symmetry. apply nth_overflow. lia.
Qed.

(** X4.  With [lambda = 0] every advantage is the one-step temporal
    difference error [reward + gamma * V(next) * (1 - done) - V], where
    [V(next)] is the value of the following transition, or the bootstrap
    value for the last one. *)
Theorem zero_lambda_gives_td_errors self values bootstrap i r d v :
  Memory.well_formed (memory self) ->
  length values = Memory.len (memory self) ->
  lambd self = 0 ->
  nth_error (consumed_rewards self) i = Some r ->
  nth_error (Memory.dones (memory self)) i = Some d ->
  nth_error values i = Some v ->
  exists rets advs adv,
    _returns_advantages values bootstrap self = Ok ((rets, advs), self) /\
    nth_error advs i = Some adv /\
    adv = r + gamma self * nth (S i) values bootstrap * (1 - B2R d) - v.
Proof.
  intros WF LV L0 Nr Nd Nv.
  pose proof (transitions_nth_intro _ _ _ _ _ _ _ Nr Nd Nv) as N.
  destruct (estimate_code_nth (gamma self) (lambd self) _ bootstrap _ _ _ _ N)
    as [_ A].
  do 3 eexists. split; [apply _returns_advantages_run; assumption|].
  split; [exact A|].
  destruct WF as (_ & _ & WFd). unfold Memory.len in LV.
  rewrite next_value_of_rest; rewrite ?consumed_rewards_length; try assumption.
  rewrite L0. ring.
Qed.

End EstimatorProperties.

(* ================================================================== *)
(** * Reward normalisation *)

Lemma tsum_map_affine (c m : R) (v : vec) :
  tsum (map (fun r => (r - m) / c) v) = (tsum v - INR (length v) * m) / c.
Proof.
  induction v as [|x v IH].
  - simpl. unfold Rdiv. ring.
  - change (length (x :: v)) with (S (length v)). rewrite S_INR.
    cbn [map tsum fold_right]. fold (tsum (map (fun r => (r - m) / c) v)).
    fold (tsum v). rewrite IH. unfold Rdiv. ring.
Qed.

(** X5.  The normalised rewards sum to zero, for every reward vector. *)
Theorem normalised_rewards_sum_to_zero (rewards : vec) :
  tsum (normalize rewards) = 0.
Proof.
  unfold normalize. rewrite tsum_map_affine.
  destruct rewards as [|r rewards].
  - simpl. unfold Rdiv. ring.
  - assert (INR (length (r :: rewards)) <> 0).
    { apply not_0_INR. discriminate. }
    unfold mean.
    replace (tsum (r :: rewards)
             - INR (length (r :: rewards))
               * (tsum (r :: rewards) / INR (length (r :: rewards))))
      with 0 by (field; assumption).
    unfold Rdiv. ring.
Qed.

Lemma tsum_repeat (r : R) (n : nat) : tsum (repeat r n) = INR n * r.
Proof.
  induction n as [|n IH].
  - simpl. ring.
  - rewrite S_INR. cbn [repeat tsum fold_right]. fold (tsum (repeat r n)).
    rewrite IH. ring.
Qed.

(** X6.  Over the reals, a buffer whose rewards are all equal normalises
    to zeros: the mean is the common reward, so every numerator is zero, and
    the added epsilon keeps the quotient defined although the standard
    deviation is zero.  (A floating-point mean may differ from the common
    reward by a rounding error, which the small divisor then magnifies.) *)
Theorem constant_rewards_normalise_to_zero (r : R) (n : nat) :
  normalize (repeat r n) = repeat 0 n.
Proof.
  destruct n as [|n]; [reflexivity|].
  assert (M : mean (repeat r (S n)) = r).
  { unfold mean. rewrite tsum_repeat, repeat_length. field.
    apply not_0_INR. discriminate. }
  unfold normalize. rewrite M.
  generalize (normalization_divisor (repeat r (S n))). intros c.
  generalize (S n). intros k. induction k as [|k IH]; [reflexivity|].
  cbn [repeat map]. rewrite IH. f_equal. unfold Rdiv. ring.
Qed.

(* ================================================================== *)
(** * Further properties of the ratio and of the objectives *)

Section ObjectiveProperties.
Context {Env : Environment} {Est : Estimators}.
Implicit Types self s : PPOAgent.

Lemma old_policy_empty {A} : old_policy (@nil A) = Raise IndexError.
Proof. reflexivity. Qed.

(** X7.  Before any snapshot has been recorded the ratio cannot be
    computed: with an empty history ([probs_list] for a discrete agent,
    [mean_list] otherwise) [compute_proba_ratio] raises [IndexError],
    whatever the policy output and the actions. *)
Theorem empty_history_raises_IndexError self prob actions :
  (if discrete_action_bool self then probs_list self else mean_list self) = [] ->
  compute_proba_ratio prob actions self = Raise IndexError.
Proof.
  intros H. destruct (discrete_action_bool self) eqn:D.
  - rewrite compute_proba_ratio_discrete by assumption. now rewrite H.
  - rewrite compute_proba_ratio_continuous by assumption. now rewrite H.
Qed.

Lemma A2C_loss_pure self prob actions advantages loss self' :
  A2C_loss prob actions advantages self = Ok (loss, self') -> self' = self.
Proof.
  unfold A2C_loss. run. destruct (discrete_action_bool self).
  - destruct (for_each _ _ _); [|discriminate]. now intros [= _ <-].
  - destruct (dot _ _); [|discriminate]. now intros [= _ <-].
Qed.

Lemma clipped_loss_pure self prob actions advantages loss self' :
  clipped_loss prob actions advantages self = Ok (loss, self') -> self' = self.
Proof.
  unfold clipped_loss. unfold bind at 1.
  destruct (compute_proba_ratio prob actions self) as [[[r o] s1]|] eqn:E;
    [|discriminate].
  apply compute_proba_ratio_pure in E. subst s1. run.
  destruct (clipped_surrogate _ _ _); [|discriminate]. now intros [= _ <-].
Qed.

Lemma kl_penalised_effect self ratio_vect advantages kl loss self' :
  kl_penalised ratio_vect advantages kl self = Ok (loss, self') ->
  self' = set_stdout
            (stdout self ++
             [Number (update_beta (Config.d_targ (config self)) kl (beta_kl self))])
            (set_beta_kl (update_beta (Config.d_targ (config self)) kl (beta_kl self))
               self).
Proof.
  unfold kl_penalised. run.
  destruct (ewise Rmult ratio_vect advantages); [|discriminate].
  now intros [= _ <-].
Qed.

(** X8.  Side effects of the objectives on a discrete agent whose old
    policy and current output hold positive probabilities only (so that no
    ratio, logarithm or divergence is NaN and no NaN diagnostic is due):
    [clipped_loss] and [A2C_loss] return the agent they were given and print
    nothing; [adaptative_KL_loss] changes only the coefficient [beta_kl] and
    prints one line, the new coefficient. *)
Theorem objectives_side_effects
    self prob actions advantages observations old_prob loss self' :
  discrete_action_bool self = true ->
  old_policy (probs_list self) = Ok old_prob ->
  Forall (Forall (fun p => 0 < p)) old_prob ->
  Forall (Forall (fun p => 0 < p)) prob ->
  (clipped_loss prob actions advantages self = Ok (loss, self') -> self' = self) /\
  (A2C_loss prob actions advantages self = Ok (loss, self') -> self' = self) /\
  (adaptative_KL_loss prob actions advantages observations self = Ok (loss, self') ->
   exists beta,
     self' = set_stdout (stdout self ++ [Number beta]) (set_beta_kl beta self)).
Proof.
  intros D _ _ _.
  split; [apply clipped_loss_pure|split; [apply A2C_loss_pure|]].
  unfold adaptative_KL_loss. unfold bind at 1. unfold get at 1. rewrite D.
  unfold bind at 1.
  destruct (compute_proba_ratio prob actions self) as [[[r o] s1]|] eqn:E;
    [|discriminate].
  apply compute_proba_ratio_pure in E. subst s1.
  unfold bind at 1. unfold lift at 1.
  destruct (for_each _ _ _) as [kl|]; [|discriminate].
  intros H. apply kl_penalised_effect in H. eauto.
Qed.

Lemma tsum_zip_with_le (f g : R -> R -> R) (a b : vec) :
  (forall x y, f x y <= g x y) ->
  tsum (zip_with f a b) <= tsum (zip_with g a b).
Proof.
  intros H. revert b. induction a as [|x a IH]; intros [|y b]; simpl; try lra.
  specialize (IH b). specialize (H x y). unfold tsum in *. lra.
Qed.

(** X9.  The clipped loss is never below the unclipped surrogate loss:
    [clipped_surrogate >= - sum (ratio * advantage)], for every clip range,
    ratio vector and advantage vector of the same length. *)
Theorem clipped_loss_is_pessimistic (eps : R) (ratio_vect advantages : vec) :
  length ratio_vect = length advantages ->
  exists loss,
    clipped_surrogate eps ratio_vect advantages = Ok loss /\
    - tsum (zip_with Rmult ratio_vect advantages) <= loss.
Proof.
  intros L. eexists. split; [now apply clipped_surrogate_same_length|].
  apply Ropp_le_contravar. apply tsum_zip_with_le. intros x y. apply Rmin_l.
Qed.

Lemma kl_of_identical_rows (p : mat) (k : nat) (acc : R) :
  (k <= length p)%nat ->
  exists kl,
    for_each (kl_body p p) (seq (length p - k) k) acc = Ok kl /\ kl = acc.
Proof.
  revert acc. induction k as [|k IH]; intros acc Hk.
  - exists acc. now split.
  - cbn [seq for_each].
    destruct (getitem_succeeds p (length p - S k)) as (row & Er & _); [lia|].
    unfold kl_body at 1. rewrite Er. cbn [rbind].
    rewrite ewise_diag. cbn [rbind].
    rewrite ewise_same_length by (now rewrite !length_map). cbn [rbind].
    replace (S (length p - S k)) with (length p - k)%nat by lia.
    destruct (IH (acc + tsum (zip_with Rmult row
                                (map (fun x => x - x) (map ln row))))) as (kl & E & K);
      [lia|].
    exists kl. split; [exact E|]. rewrite K.
    assert (Z : forall r : vec, tsum (zip_with Rmult r (map (fun x => x - x) (map ln r))) = 0).
    { clear. intros r. rewrite map_map.
      assert (G : forall (a b : vec), tsum (zip_with Rmult a (map (fun x => ln x - ln x) b)) = 0).
      { induction a as [|x a IHa]; intros [|y b]; simpl; try reflexivity.
        fold (tsum (zip_with Rmult a (map (fun x0 => ln x0 - ln x0) b))).
        rewrite IHa. ring. }
      apply G. }
    rewrite Z. ring.
Qed.

Lemma adaptative_KL_loss_run_discrete
    self prob actions advantages observations ratio_vect old_prob kl t :
  discrete_action_bool self = true ->
  compute_proba_ratio prob actions self = Ok ((ratio_vect, old_prob), self) ->
  for_each (kl_body old_prob prob) (seq 0 (length prob)) 0 = Ok kl ->
  ewise Rmult ratio_vect advantages = Ok t ->
  exists self',
    adaptative_KL_loss prob actions advantages observations self =
      Ok (- tsum t + beta_kl self * kl, self') /\
    beta_kl self' = update_beta (Config.d_targ (config self)) kl (beta_kl self).
Proof.
  intros D H K T. eexists. split.
  - unfold adaptative_KL_loss. unfold bind at 1. unfold get at 1. rewrite D.
    unfold bind at 1. rewrite H. unfold bind at 1. unfold lift at 1. rewrite K.
    apply kl_penalised_run. exact T.
  - reflexivity.
Qed.

(** X10.  On the bootstrap minibatch, where the history holds just the
    current policy output and that output holds positive probabilities
    only, the divergence is 0 and every ratio is 1: the adaptive-KL loss is
    [- sum advantages] and, for a positive target, the coefficient is
    halved. *)
Theorem bootstrap_adaptive_KL_halves_beta
    self prob actions advantages observations masses :
  discrete_action_bool self = true ->
  probs_list self = [prob] ->
  Forall (Forall (fun p => 0 < p)) prob ->
  gather prob (map long actions) = Ok masses ->
  length advantages = length actions ->
  0 < Config.d_targ (config self) ->
  exists loss self',
    adaptative_KL_loss prob actions advantages observations self = Ok (loss, self') /\
    loss = - tsum advantages /\
    beta_kl self' = beta_kl self / 2.
Proof.
  intros D P Pos G L T.
  assert (NZ : Forall (fun m => m <> 0) masses).
  { apply (gather_Forall (fun m => m <> 0) prob _ _ ) in G; [assumption|].
    eapply Forall_impl; [|exact Pos]. intros row Hrow.
    eapply Forall_impl; [|exact Hrow]. simpl. intros p Hp. lra. }
  assert (R1 : compute_proba_ratio prob actions self =
               Ok ((repeat 1 (length actions), prob), self)).
  { rewrite compute_proba_ratio_discrete by assumption.
    rewrite P, old_policy_single, G, ewise_diag.
    rewrite <- zip_with_diag, zip_with_div_self by assumption.
    apply gather_length in G. rewrite length_map in G. now rewrite G. }
  destruct (kl_of_identical_rows prob (length prob) 0 (le_n _)) as (kl & K & K0).
  rewrite Nat.sub_diag in K.
  destruct (adaptative_KL_loss_run_discrete self prob actions advantages observations
              (repeat 1 (length actions)) prob kl
              (zip_with Rmult (repeat 1 (length actions)) advantages) D R1 K)
    as (self' & E & B).
  { apply ewise_same_length. now rewrite repeat_length. }
  exists (- tsum (zip_with Rmult (repeat 1 (length actions)) advantages)
          + beta_kl self * kl), self'.
  split; [exact E|split].
  - rewrite K0.
    assert (O : forall (n : nat) (a : vec), length a = n ->
                zip_with Rmult (repeat 1 n) a = a).
    { clear. induction n as [|n IH]; intros [|x a] H; simpl in *; try lia; auto.
      rewrite IH by lia. f_equal. ring. }
    rewrite O by assumption. ring.
  - rewrite B. apply update_beta_halves. rewrite K0.
    apply Rdiv_lt_0_compat; lra.
Qed.

End ObjectiveProperties.

(* ================================================================== *)
(** * Further properties of the optimisation pass and of the driver *)

Section PassProperties.
Context {Env : Environment} {Est : Estimators}.
Implicit Types self s : PPOAgent.



(** On an empty buffer the pass stops earlier, at the critic (line 299),
    for observations that have at least one feature. *)
Lemma empty_buffer_raises_RuntimeError next_obs self :
  Memory.observations (memory self) = [] ->
  (0 < observation_shape)%nat ->
  optimize_model next_obs self = Raise RuntimeError.
Proof.
  intros E O. unfold optimize_model. run. rewrite E. cbn [critic_call].
  destruct (Nat.eqb_spec observation_shape 0) as [Z|_]; [lia|reflexivity].
Qed.




Lemma optimize_trigger_clears evol epochs next_obs s evol' s' :
  optimize_trigger epochs next_obs evol s = Ok (evol', s') ->
  memory s' = Memory.empty.
Proof.
  unfold optimize_trigger. unfold bind at 1.
  destruct (forM _ _ _ s) as [[ev s1]|]; [|discriminate].
  run. now intros [= _ <-].
Qed.

(** X14.  The buffer invariant across a step of the driver: a step that
    returns leaves the four sequences of the buffer of equal length, with
    one transition more than before, or none when the step ended with an
    optimize trigger; and the step counter has advanced by one. *)
Theorem step_keeps_buffer_well_formed (epochs optimize_every : nat) (l l' : locals)
    self self' (done : bool) :
  Memory.well_formed (memory self) ->
  training_step epochs optimize_every l self = Ok ((l', done), self') ->
  Memory.well_formed (memory self') /\
  (Memory.len (memory self') = S (Memory.len (memory self)) \/
   Memory.len (memory self') = 0%nat) /\
  timestep_count l' = S (timestep_count l).
Proof.
  intros (WFo & WFa & WFd) H.
  destruct (multinomial (actor_forward (actor_network self) (obs l)) (rng self))
    as [k g] eqn:Hm.
  destruct (env_step k (env self)) as [[[o r] d] e] eqn:He.
  destruct optimize_every as [|oe].
  { unfold training_step, select_action in H. run.
    cbn [actor_network rng set_memory] in H. rewrite Hm in H.
    cbn [env set_memory set_rng] in H. rewrite He in H. discriminate. }
  rewrite (training_step_run epochs (S oe) l self k g o r d e Hm He) in H by lia.
  destruct (S (timestep_count l) mod S oe =? 0)%nat.
  - destruct (optimize_trigger epochs o (loss_evol l) (stored (obs l) k g r d e self))
      as [[evol s1]|] eqn:T; [|discriminate].
    injection H as <- _ <-. apply optimize_trigger_clears in T. rewrite T.
    repeat split. now right.
  - injection H as <- _ <-. rewrite (proj1 (stored_fields _ _ _ _ _ _ _)).
    unfold Memory.well_formed, Memory.len.
    cbn [Memory.observations Memory.actions Memory.rewards Memory.dones
           Memory.append_observation Memory.append_action Memory.append_done
           Memory.append_reward].
    rewrite !length_app. cbn [length]. repeat split; lia.
Qed.

End PassProperties.

(* ================================================================== *)
(** * Properties of the networks *)

Lemma tsum_map_div {A} (f : A -> R) (c : R) (l : list A) :
  tsum (map (fun a => f a / c) l) = tsum (map f l) / c.
Proof.
  induction l as [|a l IH].
  - simpl. unfold Rdiv. ring.
  - cbn [map tsum fold_right]. fold (tsum (map (fun a0 => f a0 / c) l)).
    fold (tsum (map f l)). rewrite IH. unfold Rdiv. ring.
Qed.

Lemma tsum_exp_pos (x : vec) : x <> [] -> 0 < tsum (map exp x).
Proof.
  intros NE. induction x as [|a x IH]; [contradiction|].
  cbn [map tsum fold_right]. fold (tsum (map exp x)).
  pose proof (exp_pos a). destruct x as [|b x].
  - simpl. lra.
  - assert (0 < tsum (map exp (b :: x))) by (apply IH; discriminate). lra.
Qed.

Lemma softmax_sums_to_one (x : vec) : x <> [] -> tsum (softmax x) = 1.
Proof.
  intros NE. unfold softmax. rewrite (tsum_map_div exp).
  pose proof (tsum_exp_pos x NE). field. lra.
Qed.

(** Every entry of a softmax lies between 0 and 1. *)
Lemma softmax_unit_interval (x : vec) : Forall (fun q => 0 <= q <= 1) (softmax x).
Proof.
  unfold softmax. apply Forall_map, Forall_forall. intros a Ha.
  assert (NE : x <> []) by (intros ->; contradiction).
  pose proof (tsum_exp_pos x NE) as P. pose proof (exp_pos a) as Q.
  assert (LE : exp a <= tsum (map exp x)).
  { clear NE P. induction x as [|b x IH]; [contradiction|].
    cbn [map tsum fold_right]. fold (tsum (map exp x)).
    assert (0 <= tsum (map exp x)).
    { destruct x as [|c x]; [simpl; lra|].
      left. apply tsum_exp_pos. discriminate. }
    destruct Ha as [->|Ha]; [lra|].
    pose proof (exp_pos b). specialize (IH Ha). lra. }
  split.
  - left. now apply Rdiv_lt_0_compat.
  - apply (Rmult_le_reg_r (tsum (map exp x))); [exact P|].
    replace (exp a / tsum (map exp x) * tsum (map exp x)) with (exp a)
      by (field; lra).
    lra.
Qed.

Lemma tanh_bounds (x : R) : -1 < tanh x < 1.
Proof.
  unfold tanh, sinh, cosh.
  pose proof (exp_pos x) as A. pose proof (exp_pos (- x)) as B.
  set (a := exp x) in *. set (b := exp (- x)) in *.
  assert (C : 0 < (a + b) / 2) by lra.
  split.
  - apply (Rmult_lt_reg_r ((a + b) / 2)); [exact C|].
    replace ((a - b) / 2 / ((a + b) / 2) * ((a + b) / 2)) with ((a - b) / 2)
      by (field; lra).
    lra.
  - apply (Rmult_lt_reg_r ((a + b) / 2)); [exact C|].
    replace ((a - b) / 2 / ((a + b) / 2) * ((a + b) / 2)) with ((a - b) / 2)
      by (field; lra).
    lra.
Qed.

Lemma traverse_dot_shaped (w : mat) (x : vec) (n : nat) :
  Forall (fun row => length row = n) w -> length x = n ->
  exists y, Networks.traverse (fun row => dot row x) w = Ok y /\
            length y = length w.
Proof.
  intros W L. induction W as [|row w Hr _ (y & E & Ly)].
  - now exists [].
  - cbn [Networks.traverse]. unfold dot at 1.
    replace (length row =? length x)%nat with true
      by (symmetry; apply Nat.eqb_eq; congruence).
    cbn [rbind]. rewrite E. cbn [rbind]. eexists. split; [reflexivity|].
    simpl. now rewrite Ly.
Qed.

(** A layer of shape [inputs -> outputs] on an input of the right size. *)
Lemma linear_shaped (inputs outputs : nat) (l : Networks.Linear) (x : vec) :
  Networks.shaped inputs outputs l -> length x = inputs ->
  exists y, Networks.linear l x = Ok y /\ length y = outputs.
Proof.
  intros (Lw & W & Lb) Lx. unfold Networks.linear.
  destruct (traverse_dot_shaped _ x inputs W Lx) as (y & E & Ly).
  rewrite E. cbn [rbind]. rewrite ewise_same_length by congruence.
  eexists. split; [reflexivity|]. rewrite zip_with_length; congruence.
Qed.

(** A layer with at least one output on an input of the wrong size. *)
Lemma linear_wrong_size (inputs outputs : nat) (l : Networks.Linear) (x : vec) :
  Networks.shaped inputs outputs l -> (0 < outputs)%nat -> length x <> inputs ->
  Networks.linear l x = Raise RuntimeError.
Proof.
  intros (Lw & W & Lb) O Lx. unfold Networks.linear.
  destruct (Networks.weight l) as [|row w]; [simpl in Lw; lia|].
  inversion W as [|? ? Hr _]; subst.
  cbn [Networks.traverse]. unfold dot at 1.
  replace (length row =? length x)%nat with false; [reflexivity|].
  symmetry. apply Nat.eqb_neq. congruence.
Qed.

(** X15.  The critic on an observation: with layers of shapes
    [inputs -> hidden -> hidden -> outputs] it returns [outputs] numbers for
    an observation of [inputs] numbers, of which [predict] takes the first;
    an observation of any other size makes both raise (when the hidden
    layer is not empty). *)
Theorem value_network_shapes (inputs hidden outputs : nat)
    (net : Networks.CustomValueNetwork.t) (x : vec) :
  Networks.shaped inputs hidden (Networks.CustomValueNetwork.fc1 net) ->
  Networks.shaped hidden hidden (Networks.CustomValueNetwork.fc2 net) ->
  Networks.shaped hidden outputs (Networks.CustomValueNetwork.fc3 net) ->
  (0 < hidden)%nat -> (0 < outputs)%nat ->
  (length x = inputs ->
   exists y v,
     Networks.CustomValueNetwork.forward net x = Ok y /\ length y = outputs /\
     Networks.CustomValueNetwork.predict net x = Ok v /\ nth_error y 0 = Some v) /\
  (length x <> inputs ->
   Networks.CustomValueNetwork.forward net x = Raise RuntimeError /\
   Networks.CustomValueNetwork.predict net x = Raise RuntimeError).
Proof.
  intros S1 S2 S3 H O. split.
  - intros Lx. unfold Networks.CustomValueNetwork.predict,
      Networks.CustomValueNetwork.forward.
    destruct (linear_shaped _ _ _ x S1 Lx) as (y1 & E1 & L1). rewrite E1. cbn [rbind].
    destruct (linear_shaped _ _ _ (map Networks.relu y1) S2) as (y2 & E2 & L2).
    { now rewrite length_map. }
    rewrite E2. cbn [rbind].
    destruct (linear_shaped _ _ _ (map Networks.relu y2) S3) as (y3 & E3 & L3).
    { now rewrite length_map. }
    rewrite E3. cbn [rbind].
    destruct y3 as [|v y3]; [simpl in L3; lia|].
    exists (v :: y3), v. now repeat split.
  - intros Lx. unfold Networks.CustomValueNetwork.predict,
      Networks.CustomValueNetwork.forward.
    rewrite (linear_wrong_size _ _ _ x S1 H Lx). now split.
Qed.

(** X16.  The discrete actor returns one score per action, each within
    the closed interval from 0 to 1: with layers of shapes
    [inputs -> hidden -> hidden -> actions] and at least one action, its
    output on an observation of [inputs] numbers has one entry per action
    and every entry lies between 0 and 1, both bounds included.  Weights
    and activations are real numbers here, so nothing overflows.  (The
    bounds are attained in single precision, where a softmax entry can
    underflow to 0 and another round to 1; over the reals the entries are
    positive and sum to 1, [softmax_pos] and [softmax_sums_to_one].) *)
Theorem discrete_actor_outputs_a_distribution (inputs hidden actions : nat)
    (net : Networks.CustomDiscreteActorNetwork.t) (x : vec) :
  Networks.shaped inputs hidden (Networks.CustomDiscreteActorNetwork.fc1 net) ->
  Networks.shaped hidden hidden (Networks.CustomDiscreteActorNetwork.fc2 net) ->
  Networks.shaped hidden actions (Networks.CustomDiscreteActorNetwork.fc3 net) ->
  (0 < actions)%nat ->
  length x = inputs ->
  exists p,
    Networks.CustomDiscreteActorNetwork.forward net x = Ok p /\
    length p = actions /\
    Forall (fun q => 0 <= q <= 1) p.
Proof.
  intros S1 S2 S3 A Lx. unfold Networks.CustomDiscreteActorNetwork.forward.
  destruct (linear_shaped _ _ _ x S1 Lx) as (y1 & E1 & L1). rewrite E1. cbn [rbind].
  destruct (linear_shaped _ _ _ (map tanh y1) S2) as (y2 & E2 & L2).
  { now rewrite length_map. }
  rewrite E2. cbn [rbind].
  destruct (linear_shaped _ _ _ (map tanh y2) S2) as (y3 & E3 & L3).
  { now rewrite length_map. }
  rewrite E3. cbn [rbind].
  destruct (linear_shaped _ _ _ (map tanh y3) S3) as (y4 & E4 & L4).
  { now rewrite length_map. }
  rewrite E4. cbn [rbind].
  exists (softmax y4). split; [reflexivity|]. split.
  - unfold softmax. now rewrite length_map.
  - apply softmax_unit_interval.
Qed.

(** X17.  The continuous actor: [forward] raises [NotImplementedError] on
    every input, and [evaluate], with layers of shapes
    [inputs -> hidden -> hidden -> actions], returns one action mean per
    action dimension, each between -1 and 1, both bounds included.
    Weights and activations are real numbers here, so nothing overflows.
    (The bounds are attained in single precision, where [tanh] saturates;
    over the reals they are strict, [tanh_bounds].) *)
Theorem continuous_actor_means_are_bounded (inputs hidden actions : nat)
    (net : Networks.ContinuousActorNetwork.t) (x : vec) :
  Networks.shaped inputs hidden (Networks.ContinuousActorNetwork.fc1 net) ->
  Networks.shaped hidden hidden (Networks.ContinuousActorNetwork.fc2 net) ->
  Networks.shaped hidden actions (Networks.ContinuousActorNetwork.fc3 net) ->
  length x = inputs ->
  Networks.ContinuousActorNetwork.forward net x = Raise NotImplementedError /\
  exists mu,
    Networks.ContinuousActorNetwork.evaluate net x = Ok mu /\
    length mu = actions /\
    Forall (fun m => -1 <= m <= 1) mu.
Proof.
  intros S1 S2 S3 Lx. split; [reflexivity|].
  unfold Networks.ContinuousActorNetwork.evaluate.
  destruct (linear_shaped _ _ _ x S1 Lx) as (y1 & E1 & L1). rewrite E1. cbn [rbind].
  destruct (linear_shaped _ _ _ (map tanh y1) S2) as (y2 & E2 & L2).
  { now rewrite length_map. }
  rewrite E2. cbn [rbind].
  destruct (linear_shaped _ _ _ (map tanh y2) S2) as (y3 & E3 & L3).
  { now rewrite length_map. }
  rewrite E3. cbn [rbind].
  destruct (linear_shaped _ _ _ (map tanh y3) S3) as (y4 & E4 & L4).
  { now rewrite length_map. }
  rewrite E4. cbn [rbind].
  exists (map tanh y4). split; [reflexivity|]. split.
  - now rewrite length_map.
  - apply Forall_map, Forall_forall. intros m _.
    pose proof (tanh_bounds m). lra.
Qed.

(* ================================================================== *)
(** * Construction, the divergence and the vanilla objective *)

Section MoreProperties.
Context {Env : Environment} {Est : Estimators}.
Implicit Types self s : PPOAgent.

(** X18.  Over a discrete action space the constructor returns an agent
    that starts from nothing: empty buffer, empty snapshot histories,
    nothing printed, and the hyperparameters of the configuration. *)
Theorem constructor_over_discrete_space (cfg : Config.t) :
  is_discrete action_space = true ->
  exists self,
    __init__ cfg = Ok self /\
    discrete_action_bool self = true /\
    memory self = Memory.empty /\
    probs_list self = [] /\ mean_list self = [] /\ stdout self = [] /\
    config self = cfg /\
    gamma self = Config.gamma cfg /\ lambd self = Config.lambda cfg /\
    c2 self = Config.c2 cfg /\ norm_reward self = Config.reward_norm cfg /\
    loss_name self = Config.loss_name cfg /\ beta_kl self = Config.beta_KL cfg /\
    batch_size self = Config.batch_size cfg.
Proof.
  intros D. unfold __init__, make_actor. rewrite D. cbn.
  destruct (CustomValueNetwork observation_shape 64 1 (manual_seed (Config.seed cfg)))
    as [vnet g].
  cbn.
  destruct (CustomDiscreteActorNetwork observation_shape 64 (action_size action_space) g)
    as [anet g'].
  cbn. eexists. split; [reflexivity|]. cbn.
  destruct action_space; [|discriminate]. now repeat split.
Qed.






Lemma index_in_nat {A} (l : list A) (j : nat) (x : A) :
  index_in l (Z.of_nat j) = Ok x -> nth_error l j = Some x.
Proof.
  unfold index_in. destruct (Z.ltb_spec (Z.of_nat j) 0) as [E|_]; [lia|].
  rewrite Nat2Z.id. destruct (nth_error l j); [|discriminate]. now intros [= ->].
Qed.

(** What a gather reads at position [i]. *)
Lemma gather_nth (input : mat) (index : list Z) (v : vec) (i : nat) (k : Z) :
  gather input index = Ok v -> nth_error index i = Some k ->
  exists row x, nth_error input i = Some row /\ index_in row k = Ok x /\
                nth_error v i = Some x.
Proof.
  revert input v i. induction index as [|k0 index IH]; intros input v i G N.
  - destruct i; discriminate.
  - simpl in G. destruct input as [|row input]; [discriminate|].
    destruct (index_in row k0) as [x|] eqn:X; [|discriminate]. simpl in G.
    destruct (gather input index) as [xs|] eqn:E; [|discriminate]. simpl in G.
    injection G as <-. destruct i as [|i].
    + simpl in N. injection N as <-. now exists row, x.
    + simpl in N. now apply (IH input xs i).
Qed.

Lemma A2C_loop (prob : mat) (acts : list nat) (advs masses : vec) :
  gather prob (map long (map INR acts)) = Ok masses ->
  length advs = length acts ->
  forall (n k : nat) (acc : R),
    (k + n = length acts)%nat ->
    exists loss,
      for_each (A2C_body prob (map INR acts) advs) (seq k n) acc = Ok loss /\
      loss = acc - tsum (zip_with (fun m a => ln (m + eps_prob) * a)
                           (skipn k masses) (skipn k advs)).
Proof.
  intros G L. pose proof (gather_length _ _ _ G) as LM. rewrite !length_map in LM.
  induction n as [|n IH]; intros k acc H.
  - exists acc. split; [reflexivity|].
    rewrite skipn_all2 by lia. simpl. ring.
  - cbn [seq for_each].
    destruct (nth_error acts k) as [j|] eqn:Nj.
    2:{ apply nth_error_None in Nj. lia. }
    destruct (gather_nth prob (map long (map INR acts)) masses k (Z.of_nat j) G)
      as (row & x & Nrow & X & Nx).
    { rewrite map_map. erewrite map_nth_error by exact Nj. now rewrite long_INR. }
    destruct (getitem_succeeds advs k) as (a & Ea & Na); [lia|].
    unfold A2C_body at 1.
    rewrite (getitem_nat (map INR acts) k (INR j)) by (now apply map_nth_error).
    cbn [rbind]. rewrite (getitem_nat _ _ _ Nrow). cbn [rbind].
    rewrite long_INR, (getitem_nat _ _ _ (index_in_nat _ _ _ X)). cbn [rbind].
    rewrite Ea. cbn [rbind].
    destruct (IH (S k) (acc - ln (x + eps_prob) * a)) as (loss & E & V); [lia|].
    exists loss. split; [exact E|]. rewrite V.
    rewrite (skipn_cons_nth _ _ _ Nx), (skipn_cons_nth _ _ _ Na).
    cbn [zip_with tsum fold_right]. unfold tsum. ring.
Qed.

(** X20.  The discrete branch of [A2C_loss] sums what [gather] reads: for
    integer actions it returns [- sum (log (p + 1e-6) * advantage)], where
    [p] runs over the probabilities [prob[i, actions[i]]], and leaves the
    agent as it was. *)
Theorem A2C_discrete_closed_form self (prob : mat) (acts : list nat)
    (advantages masses : vec) :
  discrete_action_bool self = true ->
  gather prob (map long (map INR acts)) = Ok masses ->
  length advantages = length acts ->
  exists loss,
    A2C_loss prob (map INR acts) advantages self = Ok (loss, self) /\
    loss = - tsum (zip_with (fun m a => ln (m + eps_prob) * a) masses advantages).
Proof.
  intros D G L.
  destruct (A2C_loop prob acts advantages masses G L (length acts) 0 0 eq_refl)
    as (loss & E & V).
  exists loss. split.
  - unfold A2C_loss. run. rewrite D, length_map, E. reflexivity.
  - rewrite V. cbn [skipn]. ring.
Qed.

End MoreProperties.

(* ================================================================== *)
(** * The further properties on concrete inputs *)

Lemma uniform_snapshot_ratio :
  compute_proba_ratio [[0.5; 0.5]] [0] (Scenario.one_snapshot [[0.5; 0.5]]) =
  Ok (([0.5 / 0.5], [[0.5; 0.5]]), Scenario.one_snapshot [[0.5; 0.5]]).
Proof.
  rewrite compute_proba_ratio_discrete by reflexivity.
  cbn [probs_list Scenario.one_snapshot Scenario.agent].
  rewrite old_policy_single, uniform_ratio. reflexivity.
Qed.

Lemma returns_advantages_have_buffer_length_witness :
  exists rets advs,
    _returns_advantages [0; 0; 0] 0 Examples.td_agent =
      Ok ((rets, advs), Examples.td_agent) /\
    length rets = Memory.len (memory Examples.td_agent) /\
    length advs = Memory.len (memory Examples.td_agent).
Proof.
  apply (@returns_advantages_have_buffer_length Scenario.three_step_env
           Scenario.frozen Examples.td_agent [0; 0; 0] 0).
  - exact buffer_well_formed.
  - reflexivity.
Defined.

Lemma too_few_values_raise_IndexError_witness :
  _returns_advantages [0; 0] 0 Examples.td_agent = Raise IndexError.
Proof.
  apply (@too_few_values_raise_IndexError Scenario.three_step_env
           Scenario.frozen Examples.td_agent [0; 0] 0).
  - exact buffer_well_formed.
  - cbn. lia.
Defined.

Lemma done_cuts_the_recursions_witness :
  exists rets advs ret adv,
    _returns_advantages [5; 6; 7] 9 Examples.td_agent =
      Ok ((rets, advs), Examples.td_agent) /\
    nth_error rets 2 = Some ret /\ ret = 3 /\
    nth_error advs 2 = Some adv /\ adv = 3 - 7.
Proof.
  apply (@done_cuts_the_recursions Scenario.three_step_env Scenario.frozen
           Examples.td_agent [5; 6; 7] 9 2 3 7).
  - exact buffer_well_formed.
  - reflexivity.
  - reflexivity.
  - reflexivity.
  - reflexivity.
Defined.

Lemma zero_lambda_gives_td_errors_witness :
  exists rets advs adv,
    _returns_advantages [5; 6; 7] 9 Examples.td_agent =
      Ok ((rets, advs), Examples.td_agent) /\
    nth_error advs 0 = Some adv /\
    adv = 1 + gamma Examples.td_agent * nth 1 [5; 6; 7] 9 * (1 - B2R false) - 5.
Proof.
  apply (@zero_lambda_gives_td_errors Scenario.three_step_env Scenario.frozen
           Examples.td_agent [5; 6; 7] 9 0 1 false 5).
  - exact buffer_well_formed.
  - reflexivity.
  - reflexivity.
  - reflexivity.
  - reflexivity.
  - reflexivity.
Defined.

Lemma empty_history_raises_IndexError_witness :
  compute_proba_ratio [[0.5; 0.5]] [0] (Examples.buffered 2) = Raise IndexError.
Proof.
  apply (@empty_history_raises_IndexError Scenario.three_step_env Scenario.frozen
           (Examples.buffered 2) [[0.5; 0.5]] [0]).
  reflexivity.
Defined.

Lemma uniform_clipped_loss :
  clipped_loss [[0.5; 0.5]] [0] [2] (Scenario.one_snapshot [[0.5; 0.5]]) =
  Ok (- tsum (zip_with
                (fun r a => Rmin (r * a) (clamp (1 - 0.2) (1 + 0.2) r * a))
                [0.5 / 0.5] [2]),
      Scenario.one_snapshot [[0.5; 0.5]]).
Proof.
  rewrite (clipped_loss_of_ratio _ _ _ _ _ _ uniform_snapshot_ratio).
  now rewrite clipped_surrogate_same_length.
Qed.

Lemma objectives_side_effects_witness :
  exists loss self',
    clipped_loss [[0.5; 0.5]] [0] [2] (Scenario.one_snapshot [[0.5; 0.5]]) =
      Ok (loss, self') /\
    self' = Scenario.one_snapshot [[0.5; 0.5]].
Proof.
  exists (- tsum (zip_with
                    (fun r a => Rmin (r * a) (clamp (1 - 0.2) (1 + 0.2) r * a))
                    [0.5 / 0.5] [2])), (Scenario.one_snapshot [[0.5; 0.5]]).
  split; [exact uniform_clipped_loss|].
  assert (Pos : Forall (Forall (fun p => 0 < p)) [[0.5; 0.5]]).
  { repeat apply Forall_cons; try apply Forall_nil; lra. }
  apply (proj1 (@objectives_side_effects Scenario.three_step_env Scenario.frozen
                  (Scenario.one_snapshot [[0.5; 0.5]]) [[0.5; 0.5]] [0] [2] [[0]]
                  [[0.5; 0.5]]
                  (- tsum (zip_with
                             (fun r a => Rmin (r * a) (clamp (1 - 0.2) (1 + 0.2) r * a))
                             [0.5 / 0.5] [2]))
                  (Scenario.one_snapshot [[0.5; 0.5]])
                  eq_refl eq_refl Pos Pos)).
  exact uniform_clipped_loss.
Defined.

Lemma clipped_loss_is_pessimistic_witness :
  exists loss,
    clipped_surrogate 0.2 [2] [1] = Ok loss /\
    - tsum (zip_with Rmult [2] [1]) <= loss.
Proof.
  apply (clipped_loss_is_pessimistic 0.2 [2] [1]). reflexivity.
Defined.

Lemma bootstrap_adaptive_KL_halves_beta_witness :
  exists loss self',
    adaptative_KL_loss [[0.5; 0.5]] [0] [2] [[0]] (Scenario.one_snapshot [[0.5; 0.5]]) =
      Ok (loss, self') /\
    loss = - tsum [2] /\
    beta_kl self' = beta_kl (Scenario.one_snapshot [[0.5; 0.5]]) / 2.
Proof.
  apply (@bootstrap_adaptive_KL_halves_beta Scenario.three_step_env Scenario.frozen
           (Scenario.one_snapshot [[0.5; 0.5]]) [[0.5; 0.5]] [0] [2] [[0]] [0.5]).
  - reflexivity.
  - reflexivity.
  - repeat apply Forall_cons; try apply Forall_nil; lra.
  - exact uniform_ratio.
  - reflexivity.
  - cbn. lra.
Defined.




Lemma first_step_of_the_scenario :
  training_step 1 3 {| timestep_count := 0; obs := [0]; loss_evol := [] |}
    (Scenario.fresh "clipped_loss" 3) =
  Ok ({| timestep_count := 1; obs := [INR 1]; loss_evol := [] |}, false,
      stored [0] 0%nat (1%nat : @Rng Scenario.frozen) 1 false
        (1%nat : @EnvState Scenario.three_step_env)
        (Scenario.fresh "clipped_loss" 3)).
Proof.
  rewrite (@training_step_run Scenario.three_step_env Scenario.frozen 1 3
             {| timestep_count := 0; obs := [0]; loss_evol := [] |}
             (Scenario.fresh "clipped_loss" 3) 0%nat (1%nat : @Rng Scenario.frozen)
             [INR 1] 1 false (1%nat : @EnvState Scenario.three_step_env)
             eq_refl eq_refl) by lia.
  reflexivity.
Qed.

Lemma step_keeps_buffer_well_formed_witness :
  Memory.well_formed
    (memory (stored [0] 0%nat (1%nat : @Rng Scenario.frozen) 1 false
               (1%nat : @EnvState Scenario.three_step_env)
               (Scenario.fresh "clipped_loss" 3))) /\
  (Memory.len
     (memory (stored [0] 0%nat (1%nat : @Rng Scenario.frozen) 1 false
                (1%nat : @EnvState Scenario.three_step_env)
                (Scenario.fresh "clipped_loss" 3))) =
   S (Memory.len (memory (Scenario.fresh "clipped_loss" 3))) \/
   Memory.len
     (memory (stored [0] 0%nat (1%nat : @Rng Scenario.frozen) 1 false
                (1%nat : @EnvState Scenario.three_step_env)
                (Scenario.fresh "clipped_loss" 3))) = 0%nat) /\
  1%nat = 1%nat.
Proof.
  apply (@step_keeps_buffer_well_formed Scenario.three_step_env Scenario.frozen 1 3
           {| timestep_count := 0; obs := [0]; loss_evol := [] |}
           {| timestep_count := 1; obs := [INR 1]; loss_evol := [] |}
           (Scenario.fresh "clipped_loss" 3) _ false).
  - now repeat split.
  - exact first_step_of_the_scenario.
Defined.

Lemma identity_layer_shaped : Networks.shaped 1 1 Examples.identity_layer.
Proof. repeat split. repeat constructor. Qed.

Lemma value_network_shapes_witness :
  (exists y v,
     Networks.CustomValueNetwork.forward Examples.value_net [2] = Ok y /\
     length y = 1%nat /\
     Networks.CustomValueNetwork.predict Examples.value_net [2] = Ok v /\
     nth_error y 0 = Some v) /\
  Networks.CustomValueNetwork.forward Examples.value_net [2; 3] = Raise RuntimeError /\
  Networks.CustomValueNetwork.predict Examples.value_net [2; 3] = Raise RuntimeError.
Proof.
  split.
  - apply (proj1 (value_network_shapes 1 1 1 Examples.value_net [2]
                    identity_layer_shaped identity_layer_shaped identity_layer_shaped
                    Nat.lt_0_1 Nat.lt_0_1)).
    reflexivity.
  - apply (proj2 (value_network_shapes 1 1 1 Examples.value_net [2; 3]
                    identity_layer_shaped identity_layer_shaped identity_layer_shaped
                    Nat.lt_0_1 Nat.lt_0_1)).
    discriminate.
Defined.

Lemma discrete_actor_outputs_a_distribution_witness :
  exists p,
    Networks.CustomDiscreteActorNetwork.forward Examples.discrete_net [2] = Ok p /\
    length p = 1%nat /\
    Forall (fun q => 0 <= q <= 1) p.
Proof.
  apply (discrete_actor_outputs_a_distribution 1 1 1 Examples.discrete_net [2]
           identity_layer_shaped identity_layer_shaped identity_layer_shaped
           Nat.lt_0_1).
  reflexivity.
Defined.

Lemma continuous_actor_means_are_bounded_witness :
  Networks.ContinuousActorNetwork.forward Examples.continuous_net [2] =
    Raise NotImplementedError /\
  exists mu,
    Networks.ContinuousActorNetwork.evaluate Examples.continuous_net [2] = Ok mu /\
    length mu = 1%nat /\
    Forall (fun m => -1 <= m <= 1) mu.
Proof.
  apply (continuous_actor_means_are_bounded 1 1 1 Examples.continuous_net [2]
           identity_layer_shaped identity_layer_shaped identity_layer_shaped).
  reflexivity.
Defined.

Lemma constructor_over_discrete_space_witness :
  exists self,
    @__init__ Scenario.three_step_env Scenario.frozen Examples.td_cfg = Ok self /\
    discrete_action_bool self = true /\
    memory self = Memory.empty /\
    probs_list self = [] /\ mean_list self = [] /\ stdout self = [] /\
    config self = Examples.td_cfg /\
    gamma self = Config.gamma Examples.td_cfg /\
    lambd self = Config.lambda Examples.td_cfg /\
    c2 self = Config.c2 Examples.td_cfg /\
    norm_reward self = Config.reward_norm Examples.td_cfg /\
    loss_name self = Config.loss_name Examples.td_cfg /\
    beta_kl self = Config.beta_KL Examples.td_cfg /\
    batch_size self = Config.batch_size Examples.td_cfg.
Proof.
  apply (@constructor_over_discrete_space Scenario.three_step_env Scenario.frozen
           Examples.td_cfg).
  reflexivity.
Defined.


Lemma A2C_discrete_closed_form_witness :
  exists loss,
    A2C_loss [[0.5; 0.5]] (map INR [0%nat]) [2] (Scenario.one_snapshot [[0.5; 0.5]]) =
      Ok (loss, Scenario.one_snapshot [[0.5; 0.5]]) /\
    loss = - tsum (zip_with (fun m a => ln (m + eps_prob) * a) [0.5] [2]).
Proof.
  apply (@A2C_discrete_closed_form Scenario.three_step_env Scenario.frozen
           (Scenario.one_snapshot [[0.5; 0.5]]) [[0.5; 0.5]] [0%nat] [2] [0.5]).
  - reflexivity.
  - exact uniform_ratio.
  - reflexivity.
Defined.
